(** * A shallow embedding of paddleseg/models/danet.py

    Tensors are modelled the way the tensor runtime exposes them: a shape
    (a list of extents) and a real value at every multi-index.  Every tensor
    operator checks the shapes of its operands exactly as the runtime does and
    returns [None] where the runtime raises; the values are only read at valid
    indices.  Floating point is replaced by the real numbers.  Layers with
    a train/eval mode or random draws (dropout, batch norm) run in a small
    reader/state/error monad [M]; construction returns a result together with
    the trace of its filesystem queries and loads. *)

From Stdlib Require Import String.
From Stdlib Require Import List Arith Lia ZArith Bool.
From Stdlib Require Import Reals Psatz.
Import ListNotations.

Open Scope R_scope.

(** ** Tensors *)

Record tensor := mk_tensor {
  shape : list nat;
  get : list nat -> R
}.

Definition numel (s : list nat) : nat := fold_right Nat.mul 1%nat s.

(** [idx] is a valid multi-index of a tensor of shape [s]. *)
Fixpoint valid (s idx : list nat) : bool :=
  match s, idx with
  | [], [] => true
  | d :: s', i :: idx' => (i <? d)%nat && valid s' idx'
  | _, _ => false
  end.

(** Extensional equality of tensors: same shape, same value at every valid
    index (what [paddle.equal_all] observes). *)
Definition teq (a b : tensor) : Prop :=
  shape a = shape b /\
  forall idx, valid (shape a) idx = true -> get a idx = get b idx.

Fixpoint sumR (n : nat) (f : nat -> R) : R :=
  match n with
  | O => 0
  | S k => sumR k f + f k
  end.

(** [maxR k f] is the maximum of [f 0 .. f k]. *)
Fixpoint maxR (k : nat) (f : nat -> R) : R :=
  match k with
  | O => f O
  | S k' => Rmax (maxR k' f) (f k)
  end.

Definition option_bind {A B} (m : option A) (k : A -> option B) : option B :=
  match m with Some a => k a | None => None end.

Declare Scope opt_scope.
Notation "x <- m ;; k" := (option_bind m (fun x => k))
  (at level 61, m at next level, right associativity) : opt_scope.
Open Scope opt_scope.

(** ** Row-major flattening (used by [reshape]) *)

Fixpoint flat (s idx : list nat) : nat :=
  match s, idx with
  | d :: s', i :: idx' => (i * numel s' + flat s' idx')%nat
  | _, _ => O
  end.

Fixpoint unflat (s : list nat) (k : nat) : list nat :=
  match s with
  | [] => []
  | d :: s' => (k / numel s')%nat :: unflat s' (k mod numel s')%nat
  end.

(** ** paddle.reshape

    A target entry [-1] is inferred from the element count, a target entry [0]
    copies the extent of the input at the same position, any other negative
    entry is an error; at most one [-1]; the element count must be kept. *)

Fixpoint resolve (ins : list nat) (pos : nat) (tgt : list Z) : option (list (option nat)) :=
  match tgt with
  | [] => Some []
  | t :: tgt' =>
      r <- resolve ins (S pos) tgt' ;;
      if (t =? -1)%Z then Some (None :: r)
      else if (t =? 0)%Z then
        (if (pos <? length ins)%nat then Some (Some (nth pos ins O) :: r) else None)
      else if (t <? 0)%Z then None
      else Some (Some (Z.to_nat t) :: r)
  end.

Definition known_numel (r : list (option nat)) : nat :=
  fold_right (fun o acc => match o with Some d => (d * acc)%nat | None => acc end) 1%nat r.

Definition holes (r : list (option nat)) : nat :=
  length (filter (fun o => match o with None => true | Some _ => false end) r).

Definition fill (k : nat) (r : list (option nat)) : list nat :=
  map (fun o => match o with Some d => d | None => k end) r.

Definition reshape_shape (ins : list nat) (tgt : list Z) : option (list nat) :=
  r <- resolve ins O tgt ;;
  match holes r with
  | O => if (known_numel r =? numel ins)%nat then Some (fill O r) else None
  | 1%nat =>
      let others := known_numel r in
      if (others =? 0)%nat then None
      else if (numel ins mod others =? 0)%nat then Some (fill (numel ins / others)%nat r)
      else None
  | _ => None
  end.

Definition reshape (t : tensor) (tgt : list Z) : option tensor :=
  s <- reshape_shape (shape t) tgt ;;
  Some (mk_tensor s (fun idx => get t (unflat (shape t) (flat s idx)))).

(** ** paddle.transpose with a permutation [perm] *)

Fixpoint index_of (p : nat) (perm : list nat) : nat :=
  match perm with
  | [] => O
  | q :: perm' => if (p =? q)%nat then O else S (index_of p perm')
  end.

Definition is_perm (perm : list nat) : bool :=
  forallb (fun p => existsb (Nat.eqb p) perm) (seq 0 (length perm)) &&
  forallb (fun q => (q <? length perm)%nat) perm.

Definition transpose (t : tensor) (perm : list nat) : option tensor :=
  if (length perm =? length (shape t))%nat && is_perm perm then
    Some (mk_tensor (map (fun p => nth p (shape t) O) perm)
            (fun idx => get t (map (fun p => nth (index_of p perm) idx O)
                                  (seq 0 (length perm)))))
  else None.

(** ** paddle.bmm: [b x m x k] times [b x k x n] *)

Definition bmm (a c : tensor) : option tensor :=
  match shape a, shape c with
  | [b; m; k], [b'; k'; n] =>
      if (b =? b')%nat && (k =? k')%nat then
        Some (mk_tensor [b; m; n] (fun idx =>
          match idx with
          | [i; r; q] => sumR k (fun l => get a [i; r; l] * get c [i; l; q])
          | _ => 0
          end))
      else None
  | _, _ => None
  end.

(** ** Operators along the last axis *)

Definition set_last (idx : list nat) (j : nat) : list nat := removelast idx ++ [j].

Definition last_dim (s : list nat) : nat := last s O.

(** F.softmax(t, axis=-1) *)
Definition softmax_last (t : tensor) : option tensor :=
  match shape t with
  | [] => None
  | _ =>
      let L := last_dim (shape t) in
      Some (mk_tensor (shape t) (fun idx =>
        exp (get t idx) / sumR L (fun j => exp (get t (set_last idx j)))))
  end.

(** paddle.max(t, axis=-1, keepdim=True); a reduction over an empty axis has
    no identity and is refused. *)
Definition max_last_keepdim (t : tensor) : option tensor :=
  match shape t with
  | [] => None
  | _ =>
      let L := last_dim (shape t) in
      if (L =? 0)%nat then None
      else Some (mk_tensor (removelast (shape t) ++ [1%nat]) (fun idx =>
             maxR (L - 1)%nat (fun j => get t (set_last idx j))))
  end.

(** ** Broadcasting elementwise operators (numpy rules, aligned on the right) *)

Fixpoint bshape_rev (ra rb : list nat) : option (list nat) :=
  match ra, rb with
  | [], r => Some r
  | r, [] => Some r
  | x :: ra', y :: rb' =>
      r <- bshape_rev ra' rb' ;;
      if (x =? y)%nat then Some (x :: r)
      else if (x =? 1)%nat then Some (y :: r)
      else if (y =? 1)%nat then Some (x :: r)
      else None
  end.

Definition bshape (a b : list nat) : option (list nat) :=
  r <- bshape_rev (rev a) (rev b) ;; Some (rev r).

Fixpoint bproj_aux (s idx : list nat) : list nat :=
  match s, idx with
  | d :: s', i :: idx' => (if (d =? 1)%nat then O else i) :: bproj_aux s' idx'
  | _, _ => []
  end.

(** The index of an operand of shape [s] read at the broadcast index [idx]. *)
Definition bproj (s idx : list nat) : list nat :=
  bproj_aux s (skipn (length idx - length s) idx).

Definition elementwise (f : R -> R -> R) (a b : tensor) : option tensor :=
  s <- bshape (shape a) (shape b) ;;
  Some (mk_tensor s (fun idx => f (get a (bproj (shape a) idx)) (get b (bproj (shape b) idx)))).

Definition ew_add := elementwise Rplus.
Definition ew_sub := elementwise Rminus.
Definition ew_mul := elementwise Rmult.

Fixpoint nat_list_eqb (a b : list nat) : bool :=
  match a, b with
  | [], [] => true
  | x :: a', y :: b' => (x =? y)%nat && nat_list_eqb a' b'
  | _, _ => false
  end.

(** Tensor.expand_as(target) *)
Definition expand_as (t target : tensor) : option tensor :=
  match bshape (shape t) (shape target) with
  | Some s =>
      if nat_list_eqb s (shape target) then
        Some (mk_tensor (shape target) (fun idx => get t (bproj (shape t) idx)))
      else None
  | None => None
  end.

(** ** nn.Conv2d with stride 1 and zero padding [pd] on NCHW input;
    weight [out, in, kh, kw], bias [out]. *)

Definition padded (x : tensor) (pd b c r q : nat) : R :=
  let h := nth 2 (shape x) O in
  let w := nth 3 (shape x) O in
  if (r <? pd)%nat || (q <? pd)%nat then 0
  else if ((r - pd <? h)%nat && (q - pd <? w)%nat) then get x [b; c; (r - pd)%nat; (q - pd)%nat]
  else 0.

Definition conv2d (weight bias : tensor) (pd : nat) (x : tensor) : option tensor :=
  match shape x, shape weight, shape bias with
  | [n; ci; h; w], [co; ci'; kh; kw], [co'] =>
      if (ci =? ci')%nat && (co =? co')%nat && (kh <=? h + 2 * pd)%nat
         && (kw <=? w + 2 * pd)%nat then
        Some (mk_tensor [n; co; (h + 2 * pd - kh + 1)%nat; (w + 2 * pd - kw + 1)%nat]
          (fun idx =>
             match idx with
             | [b; o; i; j] =>
                 get bias [o] +
                 sumR ci (fun c => sumR kh (fun u => sumR kw (fun v =>
                   get weight [o; c; u; v] * padded x pd b c (i + u) (j + v))))
             | _ => 0
             end))
      else None
  | _, _, _ => None
  end.

(** [self.gamma * feat + x] *)
Definition residual (gamma feat x : tensor) : option tensor :=
  scaled <- ew_mul gamma feat ;; ew_add scaled x.

(** ** PAM: position attention module *)

Record PAM := mk_PAM {
  query_w : tensor; query_b : tensor;
  key_w : tensor; key_b : tensor;
  value_w : tensor; value_b : tensor;
  pam_gamma : tensor
}.

Definition zeros (s : list nat) : tensor := mk_tensor s (fun _ => 0).
Definition filled (s : list nat) (v : R) : tensor := mk_tensor s (fun _ => v).

(** [PAM(in_channels)]: the convolution weights come from the initializer
    draws [wq], [wk], [wv]; biases are zero and [gamma] is [Constant(0)]. *)
Definition PAM_new (in_channels : nat) (wq wk wv : list nat -> R) : PAM :=
  let mid_channels := (in_channels / 8)%nat in
  {| query_w := mk_tensor [mid_channels; in_channels; 1%nat; 1%nat] wq;
     query_b := zeros [mid_channels];
     key_w := mk_tensor [mid_channels; in_channels; 1%nat; 1%nat] wk;
     key_b := zeros [mid_channels];
     value_w := mk_tensor [in_channels; in_channels; 1%nat; 1%nat] wv;
     value_b := zeros [in_channels];
     pam_gamma := zeros [1%nat] |}.

(** Lines 43-56 of [PAM.forward]: the softmaxed spatial similarity. *)
Definition pam_attention (p : PAM) (x : tensor) : option tensor :=
  match shape x with
  | [n; _; h; w] =>
      query <- conv2d (query_w p) (query_b p) 0 x ;;
      query <- reshape query [Z.of_nat n; (-1)%Z; Z.of_nat (h * w)] ;;
      query <- transpose query [0; 2; 1]%nat ;;
      key <- conv2d (key_w p) (key_b p) 0 x ;;
      key <- reshape key [Z.of_nat n; (-1)%Z; Z.of_nat (h * w)] ;;
      sim <- bmm query key ;;
      softmax_last sim
  | _ => None
  end.

Definition pam_forward (p : PAM) (x : tensor) : option tensor :=
  match shape x with
  | [n; _; h; w] =>
      sim <- pam_attention p x ;;
      value <- conv2d (value_w p) (value_b p) 0 x ;;
      value <- reshape value [Z.of_nat n; (-1)%Z; Z.of_nat (h * w)] ;;
      sim <- transpose sim [0; 2; 1]%nat ;;
      feat <- bmm value sim ;;
      feat <- reshape feat [Z.of_nat n; (-1)%Z; Z.of_nat h; Z.of_nat w] ;;
      residual (pam_gamma p) feat x
  | _ => None
  end.

(** ** CAM: channel attention module *)

Record CAM := mk_CAM { cam_gamma : tensor }.

Definition CAM_new : CAM := {| cam_gamma := zeros [1%nat] |}.

(** Lines 82-91 of [CAM.forward]: the raw channel similarity. *)
Definition cam_similarity (x : tensor) : option tensor :=
  match shape x with
  | [n; c; h; w] =>
      query <- reshape x [Z.of_nat n; Z.of_nat c; Z.of_nat (h * w)] ;;
      key <- reshape x [Z.of_nat n; Z.of_nat c; Z.of_nat (h * w)] ;;
      key <- transpose key [0; 2; 1]%nat ;;
      bmm query key
  | _ => None
  end.

(** Lines 93-94: [max(sim, -1, keepdim).expand_as(sim) - sim], then softmax. *)
Definition cam_attention (x : tensor) : option tensor :=
  sim <- cam_similarity x ;;
  mx <- max_last_keepdim sim ;;
  mx <- expand_as mx sim ;;
  sim <- ew_sub mx sim ;;
  softmax_last sim.

Definition cam_forward (p : CAM) (x : tensor) : option tensor :=
  match shape x with
  | [n; c; h; w] =>
      sim <- cam_attention x ;;
      value <- reshape x [Z.of_nat n; Z.of_nat c; Z.of_nat (h * w)] ;;
      feat <- bmm sim value ;;
      feat <- reshape feat [Z.of_nat n; Z.of_nat c; Z.of_nat h; Z.of_nat w] ;;
      residual (cam_gamma p) feat x
  | _ => None
  end.

(** ** Python list indexing and list comprehensions *)

(** [l[i]] for an integer [i], negative indices counting from the end;
    [None] is the IndexError. *)
Definition py_index {A} (l : list A) (i : Z) : option A :=
  if (i <? 0)%Z then
    if (Z.of_nat (length l) + i <? 0)%Z then None
    else nth_error l (Z.to_nat (Z.of_nat (length l) + i))
  else nth_error l (Z.to_nat i).

(** [[f(a) for a in l]], failing as soon as one [f(a)] fails. *)
Fixpoint map_option {A B} (f : A -> option B) (l : list A) : option (list B) :=
  match l with
  | [] => Some []
  | a :: l' => b <- f a ;; r <- map_option f l' ;; Some (b :: r)
  end.

(** ** The layer context

    Layers run in train or eval mode ([Layer.train()] / [Layer.eval()]).
    Random dropout masks are read from an oracle: [ctx_mask k b c] says
    whether the [k]-th random draw keeps channel [c] of sample [b].  The
    state threaded through a forward pass is the number of draws made so far,
    so two dropout layers applied in one pass read two different draws. *)

Inductive mode := Train | Eval.

Record ctx := mk_ctx {
  ctx_mode : mode;
  ctx_mask : nat -> nat -> nat -> bool
}.

Definition M (A : Type) : Type := ctx -> nat -> option (A * nat).

Definition mret {A} (a : A) : M A := fun _ k => Some (a, k).

Definition mbind {A B} (m : M A) (f : A -> M B) : M B :=
  fun c k => match m c k with Some (a, k') => f a c k' | None => None end.

(** A runtime operator that does not touch the context. *)
Definition lift {A} (o : option A) : M A :=
  fun _ k => match o with Some a => Some (a, k) | None => None end.

Declare Scope m_scope.
Notation "'let*' x ':=' m 'in' k" := (mbind m (fun x => k))
  (at level 200, x pattern, m at level 100, k at level 200) : m_scope.
Open Scope m_scope.

(** ** nn.Dropout2d(p), default mode [upscale_in_train]: in train mode each
    channel of each sample is kept (and scaled by [1/(1-p)]) or zeroed as one
    draw decides; in eval mode it is the identity. *)
Definition dropout2d (p : R) (x : tensor) : M tensor := fun c k =>
  match shape x with
  | [_; _; _; _] =>
      match ctx_mode c with
      | Eval => Some (x, k)
      | Train =>
          Some (mk_tensor (shape x) (fun idx =>
                  match idx with
                  | b :: ch :: _ => if ctx_mask c k b ch then get x idx / (1 - p) else 0
                  | _ => 0
                  end), S k)
      end
  | _ => None
  end.

(** ** Generic building blocks of [paddleseg.models.common.layer_libs] *)

(** Modelled from the spec: batch normalisation over the channel axis of an
    NCHW tensor ([SyncBatchNorm] on one device).  In train mode it normalises
    with the batch statistics, in eval mode with the running ones.  The update
    of the running statistics in train mode is not modelled: it changes no
    output of the pass that performs it. *)
Record BatchNorm := mk_BatchNorm {
  bn_weight : tensor; bn_bias : tensor; bn_mean : tensor; bn_var : tensor
}.

Definition bn_eps : R := 1 / 100000.

Definition batch_norm (bn : BatchNorm) (x : tensor) : M tensor := fun c k =>
  match shape x with
  | [n; ch; h; w] =>
      if nat_list_eqb (shape (bn_weight bn)) [ch] && nat_list_eqb (shape (bn_bias bn)) [ch]
         && nat_list_eqb (shape (bn_mean bn)) [ch] && nat_list_eqb (shape (bn_var bn)) [ch] then
        let cnt := INR (n * h * w) in
        let sum_chan (f : list nat -> R) (o : nat) :=
          sumR n (fun b => sumR h (fun i => sumR w (fun j => f [b; o; i; j]))) in
        let mean (o : nat) :=
          match ctx_mode c with
          | Train => sum_chan (get x) o / cnt
          | Eval => get (bn_mean bn) [o]
          end in
        let var (o : nat) :=
          match ctx_mode c with
          | Train => sum_chan (fun idx => (get x idx - mean o) ^ 2) o / cnt
          | Eval => get (bn_var bn) [o]
          end in
        Some (mk_tensor (shape x) (fun idx =>
          match idx with
          | [_; o; _; _] =>
              (get x idx - mean o) / sqrt (var o + bn_eps) * get (bn_weight bn) [o]
              + get (bn_bias bn) [o]
          | _ => 0
          end), k)
      else None
  | _ => None
  end.

Definition relu (x : tensor) : tensor := mk_tensor (shape x) (fun idx => Rmax 0 (get x idx)).

(** Modelled from the spec: [ConvBNReLU(in, out, k)] is a [k x k] convolution
    with bias and [same] padding ([k / 2] for odd [k]), then batch
    normalisation, then ReLU. *)
Record ConvBNReLU := mk_ConvBNReLU {
  cbr_weight : tensor; cbr_bias : tensor; cbr_bn : BatchNorm
}.

Definition conv_bn_relu (m : ConvBNReLU) (x : tensor) : M tensor :=
  let* y := lift (conv2d (cbr_weight m) (cbr_bias m) (nth 2 (shape (cbr_weight m)) O / 2)%nat x) in
  let* y := batch_norm (cbr_bn m) y in
  mret (relu y).

(** [nn.Sequential(nn.Dropout2d(p), nn.Conv2d(inter_channels, num_classes, 1))] *)
Record AuxHead := mk_AuxHead {
  aux_p : R; aux_weight : tensor; aux_bias : tensor
}.

Definition aux_forward (a : AuxHead) (x : tensor) : M tensor :=
  let* y := dropout2d (aux_p a) x in
  lift (conv2d (aux_weight a) (aux_bias a) 0 y).

(** ** DAHead *)

Record DAHead := mk_DAHead {
  channel_conv : ConvBNReLU;
  position_conv : ConvBNReLU;
  pam : PAM;
  cam : CAM;
  conv1 : ConvBNReLU;
  conv2 : ConvBNReLU;
  aux_head_pam : AuxHead;
  aux_head_cam : AuxHead;
  cls_head : AuxHead
}.

(** Lines 138-145 of [DAHead.forward]: the refined channel and position
    features. *)
Definition dahead_branches (p : DAHead) (feat_list : list tensor) : M (tensor * tensor) :=
  let* feats := lift (py_index feat_list (-1)) in
  let* channel_feats := conv_bn_relu (channel_conv p) feats in
  let* channel_feats := lift (cam_forward (cam p) channel_feats) in
  let* channel_feats := conv_bn_relu (conv1 p) channel_feats in
  let* position_feats := conv_bn_relu (position_conv p) feats in
  let* position_feats := lift (pam_forward (pam p) position_feats) in
  let* position_feats := conv_bn_relu (conv2 p) position_feats in
  mret (channel_feats, position_feats).

Definition dahead_forward (p : DAHead) (feat_list : list tensor) : M (list tensor) :=
  let* (channel_feats, position_feats) := dahead_branches p feat_list in
  let* feats_sum := lift (ew_add position_feats channel_feats) in
  let* cam_logit := aux_forward (aux_head_cam p) channel_feats in
  let* pam_logit := aux_forward (aux_head_cam p) position_feats in
  let* logit := aux_forward (cls_head p) feats_sum in
  mret [logit; cam_logit; pam_logit].

(** ** Construction of DAHead

    The random initializers are read from an oracle: [draw l idx] is the
    standard normal sample that [param_init.normal_init] uses for entry [idx]
    of the weight of the [l]-th convolution in [self.sublayers()] order.
    Convolution biases keep their zero default; batch norm weights are set to
    1 and biases to 0; running statistics keep their defaults 0 and 1. *)

Inductive error :=
| TypeError
| IndexError
| PretrainedNotFound (path : string)
| LoadError (path : string).

Inductive result (A : Type) := Ok (a : A) | Err (e : error).
Arguments Ok {A} a.
Arguments Err {A} e.

(** [param_init.normal_init(weight, scale=0.001)] *)
Definition normal_init (draw : nat -> list nat -> R) (l : nat) : list nat -> R :=
  fun idx => 1 / 1000 * draw l idx.

Definition normal_weight (draw : nat -> list nat -> R) (l : nat) (s : list nat) : tensor :=
  mk_tensor s (normal_init draw l).

Definition batch_norm_new (ch : nat) : BatchNorm :=
  {| bn_weight := filled [ch] 1; bn_bias := zeros [ch];
     bn_mean := zeros [ch]; bn_var := filled [ch] 1 |}.

Definition conv_bn_relu_new (draw : nat -> list nat -> R) (l in_ch out_ch ks : nat) : ConvBNReLU :=
  {| cbr_weight := normal_weight draw l [out_ch; in_ch; ks; ks];
     cbr_bias := zeros [out_ch];
     cbr_bn := batch_norm_new out_ch |}.

Definition aux_head_new (draw : nat -> list nat -> R) (l in_ch num_classes : nat) : AuxHead :=
  {| aux_p := 1 / 10;
     aux_weight := normal_weight draw l [num_classes; in_ch; 1%nat; 1%nat];
     aux_bias := zeros [num_classes] |}.

(** [DAHead(num_classes, in_channels)] followed by its [init_weight()];
    [PAM_new] receives the re-initialised values of its three convolution
    weights. *)
Definition dahead_new (num_classes : nat) (in_channels : list nat)
    (draw : nat -> list nat -> R) : result DAHead :=
  match py_index in_channels (-1) with
  | None => Err IndexError
  | Some in_ch =>
      let inter_channels := (in_ch / 4)%nat in
      Ok {| channel_conv := conv_bn_relu_new draw 0 in_ch inter_channels 3;
            position_conv := conv_bn_relu_new draw 1 in_ch inter_channels 3;
            pam := PAM_new inter_channels (normal_init draw 2) (normal_init draw 3) (normal_init draw 4);
            cam := CAM_new;
            conv1 := conv_bn_relu_new draw 5 inter_channels inter_channels 3;
            conv2 := conv_bn_relu_new draw 6 inter_channels inter_channels 3;
            aux_head_pam := aux_head_new draw 7 inter_channels num_classes;
            aux_head_cam := aux_head_new draw 8 inter_channels num_classes;
            cls_head := aux_head_new draw 9 inter_channels num_classes |}
  end.

(** ** DANet *)

(** The backbone is an external collaborator: its channel counts and its
    forward pass. *)
Record Backbone := mk_Backbone {
  feat_channels : list nat;
  backbone_forward : tensor -> M (list tensor)
}.

Record DANet := mk_DANet {
  backbone : Backbone;
  backbone_indices : option (list Z);
  head : DAHead
}.

(** Lines 187-191 of [DANet.__init__]; iterating over [backbone_indices =
    None] is a TypeError. *)
Definition danet_build (num_classes : nat) (bb : Backbone) (backbone_indices : option (list Z))
    (draw : nat -> list nat -> R) : result DANet :=
  match backbone_indices with
  | None => Err TypeError
  | Some idxs =>
      match map_option (py_index (feat_channels bb)) idxs with
      | None => Err IndexError
      | Some in_channels =>
          match dahead_new num_classes in_channels draw with
          | Ok h => Ok {| backbone := bb; backbone_indices := backbone_indices; head := h |}
          | Err e => Err e
          end
      end
  end.

(** What [init_weight] does to the outside world: a filesystem query and a
    call of the external loader. *)
Inductive event := PathExists (p : string) | LoadPretrained (p : string).

(** [DANet.init_weight]: [fs] answers [os.path.exists], [loader] is
    [utils.load_pretrained_model]. *)
Definition init_weight (fs : string -> bool) (loader : DANet -> string -> result DANet)
    (m : DANet) (pretrained : option string) : result DANet * list event :=
  match pretrained with
  | None => (Ok m, [])
  | Some p =>
      if fs p then (loader m p, [PathExists p; LoadPretrained p])
      else (Err (PretrainedNotFound p), [PathExists p])
  end.

(** [DANet(num_classes, backbone, pretrained, backbone_indices)] *)
Definition danet_new (fs : string -> bool) (loader : DANet -> string -> result DANet)
    (num_classes : nat) (bb : Backbone) (pretrained : option string)
    (backbone_indices : option (list Z)) (draw : nat -> list nat -> R)
    : result DANet * list event :=
  match danet_build num_classes bb backbone_indices draw with
  | Err e => (Err e, [])
  | Ok m => init_weight fs loader m pretrained
  end.

(** [F.resize_bilinear(t, out_shape)] with its defaults [align_corners=True],
    [align_mode=1]: output pixel [i] reads the input at [i * (in - 1) / (out - 1)],
    computed here exactly as a whole part and a fraction. *)
Definition src_coord (inn out i : nat) : nat * R :=
  if (1 <? out)%nat then
    let num := (i * (inn - 1))%nat in
    ((num / (out - 1))%nat, INR (num mod (out - 1)) / INR (out - 1))
  else (O, 0).

Definition resize_bilinear (t : tensor) (out_shape : list nat) : option tensor :=
  match shape t, out_shape with
  | [n; c; h; w], [oh; ow] =>
      Some (mk_tensor [n; c; oh; ow] (fun idx =>
        match idx with
        | [b; ch; i; j] =>
            let (y0, ly) := src_coord h oh i in
            let (x0, lx) := src_coord w ow j in
            let y1 := Nat.min (y0 + 1) (h - 1) in
            let x1 := Nat.min (x0 + 1) (w - 1) in
            (1 - ly) * (1 - lx) * get t [b; ch; y0; x0] + (1 - ly) * lx * get t [b; ch; y0; x1]
            + ly * (1 - lx) * get t [b; ch; y1; x0] + ly * lx * get t [b; ch; y1; x1]
        | _ => 0
        end))
  | _, _ => None
  end.

Definition danet_forward (m : DANet) (x : tensor) : M (list tensor) :=
  let* feats := backbone_forward (backbone m) x in
  let* idxs := lift (backbone_indices m) in
  let* feats := lift (map_option (py_index feats) idxs) in
  let* preds := dahead_forward (head m) feats in
  lift (map_option (fun pred => resize_bilinear pred (skipn 2 (shape x))) preds).

(** The parameter shapes the forward pass of [DAHead] relies on: both gates
    of shape [1], a square value projection in PAM, and [num_classes] output
    channels in the 1x1 convolutions of the two heads that are applied. *)
Definition head_shapes_ok (num_classes : nat) (p : DAHead) : bool :=
  nat_list_eqb (shape (pam_gamma (pam p))) [1%nat] &&
  nat_list_eqb (shape (cam_gamma (cam p))) [1%nat] &&
  match shape (value_w (pam p)) with
  | [k; k'; 1%nat; 1%nat] => (k =? k')%nat
  | _ => false
  end &&
  match shape (aux_weight (aux_head_cam p)) with
  | [o; _; 1%nat; 1%nat] => (o =? num_classes)%nat
  | _ => false
  end &&
  match shape (aux_weight (cls_head p)) with
  | [o; _; 1%nat; 1%nat] => (o =? num_classes)%nat
  | _ => false
  end.

(** ** Concrete inputs used by the examples *)

(** A feature map of shape [2; 16; 3; 2] whose entries are their row-major offsets. *)
Definition x0 : tensor := mk_tensor [2; 16; 3; 2]%nat (fun idx => INR (flat [2; 16; 3; 2]%nat idx)).

(** A PAM over 16 channels with constant convolution weights. *)
Definition P0 : PAM := PAM_new 16 (fun _ => 1%R) (fun _ => 2%R) (fun _ => 3%R).

(** A DAHead over 32 input channels (so 8 inner channels) with one class, in
    a trained state: every ConvBNReLU has zero convolution weights and a batch
    norm with weight 0 and bias 1, so it outputs 1 everywhere; the 1x1
    convolutions of the heads have weight 1 and bias 0. *)
Definition bn_const (ch : nat) : BatchNorm :=
  {| bn_weight := zeros [ch]; bn_bias := filled [ch] 1;
     bn_mean := zeros [ch]; bn_var := filled [ch] 1 |}.

Definition cbr_const (in_ch out_ch : nat) : ConvBNReLU :=
  {| cbr_weight := zeros [out_ch; in_ch; 3%nat; 3%nat];
     cbr_bias := zeros [out_ch];
     cbr_bn := bn_const out_ch |}.

Definition aux_ones (in_ch num_classes : nat) : AuxHead :=
  {| aux_p := 1 / 10;
     aux_weight := filled [num_classes; in_ch; 1%nat; 1%nat] 1;
     aux_bias := zeros [num_classes] |}.

Definition head1 : DAHead :=
  {| channel_conv := cbr_const 32 8; position_conv := cbr_const 32 8;
     pam := PAM_new 8 (fun _ => 0) (fun _ => 0) (fun _ => 0); cam := CAM_new;
     conv1 := cbr_const 8 8; conv2 := cbr_const 8 8;
     aux_head_pam := aux_ones 8 1; aux_head_cam := aux_ones 8 1; cls_head := aux_ones 8 1 |}.

(** A backbone feature map of shape [1; 32; 2; 2]. *)
Definition feat1 : tensor := mk_tensor [1; 32; 2; 2]%nat (fun _ => 1).

(** Train mode where the first random draw keeps every channel and all later
    draws drop every channel. *)
Definition ctx_train1 : ctx := mk_ctx Train (fun k _ _ => (k =? 0)%nat).

Definition ctx_eval : ctx := mk_ctx Eval (fun _ _ _ => true).

(** A backbone stub with two scales, of 16 and 32 channels, that ignores its
    input; a DANet that selects both scales and uses [head1]; an input image. *)
Definition feat0 : tensor := mk_tensor [1; 16; 4; 4]%nat (fun _ => 1).

Definition backbone1 : Backbone :=
  {| feat_channels := [16; 32]%nat; backbone_forward := fun _ => mret [feat0; feat1] |}.

Definition danet1 : DANet :=
  {| backbone := backbone1; backbone_indices := Some [0; 1]%Z; head := head1 |}.

Definition img1 : tensor := mk_tensor [1; 3; 8; 8]%nat (fun _ => 1).

(** A filesystem without any file, a loader that keeps the parameters, and
    initializer draws that are all 0. *)
Definition fs_empty : string -> bool := fun _ => false.

Definition loader_id : DANet -> string -> result DANet := fun m _ => Ok m.

Definition draw0 : nat -> list nat -> R := fun _ _ => 0.

(** ** Shape lemmas for the tensor operators *)

Lemma resolve_cons_nat ins pos a tgt :
  resolve ins pos (Z.of_nat a :: tgt) =
  (r <- resolve ins (S pos) tgt ;;
   if (a =? 0)%nat then
     (if (pos <? length ins)%nat then Some (Some (nth pos ins O) :: r) else None)
   else Some (Some a :: r)).
Proof.
  simpl. destruct (resolve ins (S pos) tgt) as [r|]; simpl; [|reflexivity].
  rewrite Nat2Z.id. destruct a as [|a]; simpl; reflexivity.
Qed.

Lemma resolve_cons_hole ins pos tgt :
  resolve ins pos ((-1)%Z :: tgt) = (r <- resolve ins (S pos) tgt ;; Some (None :: r)).
Proof. reflexivity. Qed.

Lemma reshape_shape_of t tgt t' :
  reshape t tgt = Some t' -> reshape_shape (shape t) tgt = Some (shape t').
Proof.
  unfold reshape. destruct (reshape_shape (shape t) tgt); simpl; [|discriminate].
  intros H; inversion H; reflexivity.
Qed.

Ltac resolve_simpl :=
  unfold reshape_shape; repeat (rewrite resolve_cons_nat || rewrite resolve_cons_hole); simpl.

(** [reshape(t, (n, -1, m))] on an [n x d1 x d2 x d3] tensor. *)
Lemma reshape_shape_nhm d0 d1 d2 d3 m s :
  reshape_shape [d0; d1; d2; d3] [Z.of_nat d0; (-1)%Z; Z.of_nat m] = Some s ->
  let m' := if (m =? 0)%nat then d2 else m in
  (d0 * m')%nat <> O /\ s = [d0; (numel [d0; d1; d2; d3] / (d0 * m'))%nat; m'].
Proof.
  resolve_simpl.
  destruct (m =? 0)%nat eqn:Em; destruct (d0 =? 0)%nat; simpl;
  rewrite ?Nat.mul_1_r;
  destruct (d0 * _ =? 0)%nat eqn:Ek; try discriminate;
  destruct (_ mod _ =? 0)%nat; try discriminate;
  intros H; inversion H; subst; apply Nat.eqb_neq in Ek; split; auto.
Qed.

(** [reshape(t, (a, -1, h, w))] on an [a x b x c] tensor. *)
Lemma reshape_shape_nhw a b c h w s :
  reshape_shape [a; b; c] [Z.of_nat a; (-1)%Z; Z.of_nat h; Z.of_nat w] = Some s ->
  let h' := if (h =? 0)%nat then c else h in
  w <> O /\ (a * h' * w)%nat <> O /\ s = [a; (numel [a; b; c] / (a * h' * w))%nat; h'; w].
Proof.
  resolve_simpl.
  destruct (w =? 0)%nat eqn:Ew; simpl; [destruct (h =? 0)%nat; simpl; destruct (a =? 0)%nat; discriminate|].
  destruct (h =? 0)%nat eqn:Eh; destruct (a =? 0)%nat; simpl;
  rewrite ?Nat.mul_1_r;
  destruct (a * _ =? 0)%nat eqn:Ek; try discriminate;
  destruct (_ mod _ =? 0)%nat; try discriminate;
  intros H; inversion H; subst; apply Nat.eqb_neq in Ek; apply Nat.eqb_neq in Ew;
  rewrite ?Nat.mul_assoc in *; repeat split; auto.
Qed.

Lemma reshape_shape_nchw a b c n' c' h w s :
  reshape_shape [a; b; c] [Z.of_nat n'; Z.of_nat c'; Z.of_nat h; Z.of_nat w] = Some s ->
  w <> O /\ s = [if (n' =? 0)%nat then a else n'; if (c' =? 0)%nat then b else c';
                 if (h =? 0)%nat then c else h; w].
Proof.
  resolve_simpl.
  destruct (w =? 0)%nat eqn:Ew; simpl;
   [destruct (h =? 0)%nat; simpl; destruct (c' =? 0)%nat; simpl; destruct (n' =? 0)%nat; discriminate|].
  apply Nat.eqb_neq in Ew.
  destruct (h =? 0)%nat; destruct (c' =? 0)%nat; destruct (n' =? 0)%nat; simpl;
  destruct (_ =? _)%nat; try discriminate; intros H; inversion H; auto.
Qed.

Lemma reshape_shape_nch d0 d1 d2 d3 n' c' m s :
  reshape_shape [d0; d1; d2; d3] [Z.of_nat n'; Z.of_nat c'; Z.of_nat m] = Some s ->
  s = [if (n' =? 0)%nat then d0 else n'; if (c' =? 0)%nat then d1 else c';
       if (m =? 0)%nat then d2 else m].
Proof.
  resolve_simpl.
  destruct (m =? 0)%nat; destruct (c' =? 0)%nat; destruct (n' =? 0)%nat; simpl;
  destruct (_ =? _)%nat; try discriminate; intros H; inversion H; auto.
Qed.

Lemma conv2d_shape wt b pd x y :
  conv2d wt b pd x = Some y ->
  exists n ci h w co kh kw,
    shape x = [n; ci; h; w] /\ shape wt = [co; ci; kh; kw] /\
    (kh <= h + 2 * pd)%nat /\ (kw <= w + 2 * pd)%nat /\
    shape y = [n; co; (h + 2 * pd - kh + 1)%nat; (w + 2 * pd - kw + 1)%nat].
Proof.
  unfold conv2d.
  destruct (shape x) as [|n [|ci [|h [|w [|]]]]]; try discriminate.
  destruct (shape wt) as [|co [|ci' [|kh [|kw [|]]]]]; try discriminate.
  destruct (shape b) as [|co' [|]]; try discriminate.
  destruct (_ && _ && _ && _)%bool eqn:E; [|discriminate].
  intros H; inversion H; subst; clear H.
  repeat rewrite Bool.andb_true_iff in E. destruct E as [[[E1 E2] E3] E4].
  apply Nat.eqb_eq in E1, E2; apply Nat.leb_le in E3, E4; subst.
  do 7 eexists; split; [reflexivity|]; split; [reflexivity|]; repeat split; try lia; simpl; repeat f_equal; lia.
Qed.

Lemma transpose_021 t t' :
  transpose t [0; 2; 1]%nat = Some t' ->
  exists a b c, shape t = [a; b; c] /\ shape t' = [a; c; b].
Proof.
  unfold transpose.
  destruct (shape t) as [|a [|b [|c [|]]]]; simpl; try discriminate.
  intros H; inversion H; eauto.
Qed.

Lemma bmm_shape a c t :
  bmm a c = Some t ->
  exists b m k n, shape a = [b; m; k] /\ shape c = [b; k; n] /\ shape t = [b; m; n].
Proof.
  unfold bmm.
  destruct (shape a) as [|b [|m [|k [|]]]]; try discriminate.
  destruct (shape c) as [|b' [|k' [|n [|]]]]; try discriminate.
  destruct ((b =? b')%nat && (k =? k')%nat)%bool eqn:E; [|discriminate].
  apply Bool.andb_true_iff in E as [E1 E2]; apply Nat.eqb_eq in E1, E2; subst.
  intros H; inversion H; subst; eauto 10.
Qed.


Lemma softmax_shape t t' : softmax_last t = Some t' -> shape t' = shape t.
Proof.
  unfold softmax_last. destruct (shape t) eqn:E; [discriminate|].
  intros H; inversion H; reflexivity.
Qed.

Lemma max_last_shape t t' :
  max_last_keepdim t = Some t' ->
  shape t' = removelast (shape t) ++ [1%nat] /\ last_dim (shape t) <> O.
Proof.
  unfold max_last_keepdim. destruct (shape t) eqn:E; [discriminate|].
  destruct (last_dim (n :: l) =? 0)%nat eqn:E0; [discriminate|].
  apply Nat.eqb_neq in E0. intros H; inversion H; auto.
Qed.

Lemma expand_as_shape t u t' : expand_as t u = Some t' -> shape t' = shape u.
Proof.
  unfold expand_as. destruct (bshape (shape t) (shape u)); [|discriminate].
  destruct (nat_list_eqb _ _); [|discriminate]. intros H; inversion H; reflexivity.
Qed.

Lemma bshape_rev_same r : bshape_rev r r = Some r.
Proof.
  induction r as [|x r IH]; [reflexivity|].
  simpl. rewrite IH. simpl. rewrite Nat.eqb_refl. reflexivity.
Qed.

Lemma bshape_same s : bshape s s = Some s.
Proof. unfold bshape. rewrite bshape_rev_same. simpl. rewrite rev_involutive. reflexivity. Qed.

Lemma bshape_one s : s <> [] -> bshape [1%nat] s = Some s.
Proof.
  intros Hs. unfold bshape. change (rev [1%nat]) with [1%nat].
  destruct (rev s) as [|y r] eqn:E.
  - apply (f_equal (@rev nat)) in E. rewrite rev_involutive in E. contradiction.
  - cbn [bshape_rev option_bind].
    destruct (Nat.eqb_spec 1 y) as [<-|Hy].
    + simpl. rewrite <- (rev_involutive s), E. reflexivity.
    + simpl. rewrite <- (rev_involutive s), E. reflexivity.
Qed.

Lemma elementwise_shape f a b t :
  elementwise f a b = Some t -> bshape (shape a) (shape b) = Some (shape t).
Proof.
  unfold elementwise. destruct (bshape (shape a) (shape b)); [|discriminate].
  intros H; inversion H; reflexivity.
Qed.

Lemma valid_length s idx : valid s idx = true -> length idx = length s.
Proof.
  revert idx. induction s as [|d s IH]; intros [|i idx]; simpl; try discriminate; auto.
  intros H. apply andb_true_iff in H as [_ H]. f_equal. auto.
Qed.

Lemma bproj_aux_valid s idx : valid s idx = true -> bproj_aux s idx = idx.
Proof.
  revert idx. induction s as [|d s IH]; intros [|i idx]; simpl; try discriminate; auto.
  intros H. apply andb_true_iff in H as [Hi H]. apply Nat.ltb_lt in Hi.
  rewrite IH by exact H. destruct (d =? 1)%nat eqn:Ed; [|reflexivity].
  apply Nat.eqb_eq in Ed. f_equal. lia.
Qed.

Lemma bproj_valid s idx : valid s idx = true -> bproj s idx = idx.
Proof.
  intros H. unfold bproj. rewrite (valid_length _ _ H), Nat.sub_diag. simpl.
  apply bproj_aux_valid, H.
Qed.

(** A zero gate turns [gamma * feat + x] into [x]. *)
Lemma residual_zero gamma feat x out :
  shape gamma = [1%nat] -> (forall i, get gamma i = 0%R) ->
  shape feat = shape x -> shape x <> [] ->
  residual gamma feat x = Some out -> teq out x.
Proof.
  intros Hg Hz Hf Hx. unfold residual, ew_mul, ew_add, elementwise.
  rewrite Hg, Hf, bshape_one by exact Hx. simpl. rewrite bshape_same. simpl.
  intros H; inversion H; subst; clear H. split; [reflexivity|].
  intros idx Hv. simpl. rewrite Hz, Rmult_0_l, Rplus_0_l, bproj_valid by exact Hv.
  reflexivity.
Qed.

Lemma nat_ifz_self a : (if (a =? 0)%nat then a else a) = a.
Proof. destruct (a =? 0)%nat; reflexivity. Qed.

Lemma pam_attention_shape p x s :
  pam_attention p x = Some s ->
  exists n c h w mq L, shape x = [n; c; h; w] /\ shape s = [n; mq; L] /\
    (n * L <> 0)%nat /\ ((h * w <> 0)%nat -> mq = (h * w)%nat /\ L = (h * w)%nat).
Proof.
  unfold pam_attention.
  destruct (shape x) as [|n [|c [|h [|w [|]]]]] eqn:Ex; try discriminate.
  destruct (conv2d (query_w p) _ 0 x) as [q|] eqn:Eq; simpl; [|discriminate].
  destruct (reshape q _) as [q2|] eqn:Eq2; simpl; [|discriminate].
  destruct (transpose q2 _) as [qT|] eqn:EqT; simpl; [|discriminate].
  destruct (conv2d (key_w p) _ 0 x) as [k|] eqn:Ek; simpl; [|discriminate].
  destruct (reshape k _) as [k2|] eqn:Ek2; simpl; [|discriminate].
  destruct (bmm qT k2) as [sim|] eqn:Eb; simpl; [|discriminate].
  intros Hs. apply softmax_shape in Hs.
  apply conv2d_shape in Eq as (n1 & ci & h1 & w1 & co & kh & kw & Hx & _ & _ & _ & Hq).
  rewrite Ex in Hx; injection Hx as <- <- <- <-.
  apply conv2d_shape in Ek as (n2 & ci2 & h2 & w2 & co2 & kh2 & kw2 & Hx & _ & _ & _ & Hk).
  rewrite Ex in Hx; injection Hx as <- <- <- <-.
  apply reshape_shape_of in Eq2, Ek2. rewrite Hq in Eq2. rewrite Hk in Ek2.
  apply reshape_shape_nhm in Eq2 as [_ Hq2]. apply reshape_shape_nhm in Ek2 as [Hnz Hk2].
  apply transpose_021 in EqT as (a & b & c' & Ha & HqT). rewrite Hq2 in Ha.
  injection Ha as <- <- <-.
  apply bmm_shape in Eb as (bb & mm & kk & nn & H1 & H2 & H3).
  rewrite HqT in H1. rewrite Hk2 in H2. symmetry in H1; injection H1; clear H1; intros; subst. symmetry in H2; injection H2; clear H2; intros; subst.
  do 6 eexists. split; [reflexivity|]. split; [rewrite Hs; exact H3|]. split; [exact Hnz|].
  intros Hhw. apply Nat.eqb_neq in Hhw. rewrite Hhw. auto.
Qed.

Lemma pam_forward_feat p x out k :
  shape (value_w p) = [k; k; 1%nat; 1%nat] ->
  pam_forward p x = Some out ->
  exists feat, shape x <> [] /\ shape feat = shape x /\ residual (pam_gamma p) feat x = Some out.
Proof.
  intros Hk. unfold pam_forward.
  destruct (shape x) as [|n [|c [|h [|w [|]]]]] eqn:Ex; try discriminate.
  destruct (pam_attention p x) as [sim|] eqn:Ea; simpl; [|discriminate].
  destruct (conv2d (value_w p) _ 0 x) as [v|] eqn:Ev; simpl; [|discriminate].
  destruct (reshape v _) as [v2|] eqn:Ev2; simpl; [|discriminate].
  destruct (transpose sim _) as [simT|] eqn:Et; simpl; [|discriminate].
  destruct (bmm v2 simT) as [f0|] eqn:Eb; simpl; [|discriminate].
  destruct (reshape f0 _) as [f|] eqn:Ef; simpl; [|discriminate].
  intros Hr. exists f. split; [discriminate|]. split; [|exact Hr].
  apply conv2d_shape in Ev as (n1 & ci & h1 & w1 & co & kh & kw & Hx & Hw & Hkh & Hkw & Hv).
  rewrite Ex in Hx; injection Hx as <- <- <- <-.
  rewrite Hk in Hw; injection Hw as <- <- <- <-.
  assert (Hh : (h + 2 * 0 - 1 + 1)%nat = h) by lia.
  assert (Hw : (w + 2 * 0 - 1 + 1)%nat = w) by lia.
  rewrite Hh, Hw in Hv.
  assert (Hhw : (h * w =? 0)%nat = false) by (apply Nat.eqb_neq; nia).
  apply reshape_shape_of in Ev2. rewrite Hv in Ev2.
  apply reshape_shape_nhm in Ev2 as [Hnz Hv2]. rewrite Hhw in Hnz, Hv2.
  apply pam_attention_shape in Ea as (n' & c' & h' & w' & mq & L & Hx & Hs & _ & HL).
  rewrite Ex in Hx; injection Hx as <- <- <- <-.
  destruct (HL ltac:(nia)) as [-> ->].
  apply transpose_021 in Et as (a & b & c'' & Ha & Ht). rewrite Hs in Ha.
  injection Ha as <- <- <-.
  apply bmm_shape in Eb as (bb & mm & kk & nn & H1 & H2 & H3).
  rewrite Hv2 in H1. rewrite Ht in H2. symmetry in H1; injection H1; clear H1; intros; subst. symmetry in H2; injection H2; clear H2; intros; subst.
  apply reshape_shape_of in Ef. rewrite H3 in Ef.
  apply reshape_shape_nhw in Ef as (_ & Hnz2 & Hf).
  assert (Hh0 : (h =? 0)%nat = false) by (apply Nat.eqb_neq; lia).
  rewrite Hh0 in Hnz2, Hf. rewrite Hf.
  assert (Hm : (n * (k * (h * (w * 1))) / (n * (h * w)) = k)%nat).
  { replace (n * (k * (h * (w * 1))))%nat with (k * (n * (h * w)))%nat by ring.
    apply Nat.div_mul. lia. }
  rewrite Hm.
  assert (Hm2 : (numel [n; k; (h * w)%nat] / (n * h * w) = k)%nat).
  { unfold numel; simpl. replace (n * (k * (h * w * 1)))%nat with (k * (n * h * w))%nat by ring.
    apply Nat.div_mul. lia. }
  rewrite Hm2. reflexivity.
Qed.

Lemma cam_similarity_shape x s :
  cam_similarity x = Some s ->
  exists n c h w, shape x = [n; c; h; w] /\ shape s = [n; c; c].
Proof.
  unfold cam_similarity.
  destruct (shape x) as [|n [|c [|h [|w [|]]]]] eqn:Ex; try discriminate.
  destruct (reshape x _) as [q|] eqn:Eq; simpl; [|discriminate].
  destruct (transpose q _) as [kT|] eqn:EkT; simpl; [|discriminate].
  intros Eb. apply reshape_shape_of in Eq. rewrite Ex in Eq.
  apply reshape_shape_nch in Eq. rewrite !nat_ifz_self in Eq.
  apply transpose_021 in EkT as (a & b & c' & Ha & HkT). rewrite Eq in Ha.
  injection Ha as <- <- <-.
  apply bmm_shape in Eb as (bb & mm & kk & nn & H1 & H2 & H3).
  rewrite Eq in H1. rewrite HkT in H2. symmetry in H1; injection H1; clear H1; intros; subst. symmetry in H2; injection H2; clear H2; intros; subst.
  exists n, c, h, w; auto.
Qed.

Lemma cam_attention_shape x s :
  cam_attention x = Some s ->
  exists n c h w, shape x = [n; c; h; w] /\ shape s = [n; c; c].
Proof.
  unfold cam_attention.
  destruct (cam_similarity x) as [sim|] eqn:Es; simpl; [|discriminate].
  destruct (max_last_keepdim sim) as [mx|] eqn:Em; simpl; [|discriminate].
  destruct (expand_as mx sim) as [mx2|] eqn:Ee; simpl; [|discriminate].
  destruct (ew_sub mx2 sim) as [d|] eqn:Ed; simpl; [|discriminate].
  intros Hs. apply softmax_shape in Hs.
  apply cam_similarity_shape in Es as (n & c & h & w & Hx & Hsim).
  apply expand_as_shape in Ee. apply elementwise_shape in Ed.
  rewrite Ee, bshape_same in Ed. injection Ed as Ed.
  exists n, c, h, w. split; [exact Hx|]. rewrite Hs, <- Ed. exact Hsim.
Qed.

Lemma cam_forward_feat p x out :
  cam_forward p x = Some out ->
  exists feat, shape x <> [] /\ shape feat = shape x /\ residual (cam_gamma p) feat x = Some out.
Proof.
  unfold cam_forward.
  destruct (shape x) as [|n [|c [|h [|w [|]]]]] eqn:Ex; try discriminate.
  destruct (cam_attention x) as [sim|] eqn:Ea; simpl; [|discriminate].
  destruct (reshape x _) as [v|] eqn:Ev; simpl; [|discriminate].
  destruct (bmm sim v) as [f0|] eqn:Eb; simpl; [|discriminate].
  destruct (reshape f0 _) as [f|] eqn:Ef; simpl; [|discriminate].
  intros Hr. exists f. split; [discriminate|]. split; [|exact Hr].
  apply cam_attention_shape in Ea as (n' & c' & h' & w' & Hx & Hs).
  rewrite Ex in Hx; injection Hx as <- <- <- <-.
  apply reshape_shape_of in Ev. rewrite Ex in Ev. apply reshape_shape_nch in Ev.
  rewrite !nat_ifz_self in Ev.
  apply bmm_shape in Eb as (bb & mm & kk & nn & H1 & H2 & H3).
  rewrite Hs in H1. rewrite Ev in H2. symmetry in H1; injection H1; clear H1; intros; subst. symmetry in H2; injection H2; clear H2; intros; subst.
  apply reshape_shape_of in Ef. rewrite H3 in Ef.
  apply reshape_shape_nchw in Ef as [Hw Hf]. rewrite !nat_ifz_self in Hf. rewrite Hf.
  destruct (Nat.eqb_spec h 0) as [->|Hh]; [|reflexivity].
  simpl. reflexivity.
Qed.

(** C1. Zero-gate identity: for a freshly built [PAM(in_channels)] (whatever
    values the convolution initializers drew) and a freshly built [CAM()],
    whose gates [gamma] still hold [Constant(0)], every output the forward pass
    returns on an input [x] equals [x] exactly. *)
Theorem zero_gate_identity in_channels wq wk wv x out out' :
  (pam_forward (PAM_new in_channels wq wk wv) x = Some out -> teq out x) /\
  (cam_forward CAM_new x = Some out' -> teq out' x).
Proof.
  split.
  - intros H. apply pam_forward_feat with (k := in_channels) in H as (f & Hx & Hf & Hr);
      [|reflexivity].
    refine (residual_zero _ f x out _ _ Hf Hx Hr); [reflexivity | intros; reflexivity].
  - intros H. apply cam_forward_feat in H as (f & Hx & Hf & Hr).
    refine (residual_zero _ f x out' _ _ Hf Hx Hr); [reflexivity | intros; reflexivity].
Qed.

Lemma some_not_none {A} (o : option A) : (if o then true else false) = true -> o <> None.
Proof. destruct o; [discriminate|]. intros H; discriminate H. Qed.


Lemma zero_gate_identity_witness :
  exists out out', pam_forward (PAM_new 16 (fun _ => 1%R) (fun _ => 2%R) (fun _ => 3%R)) x0 = Some out /\
    cam_forward CAM_new x0 = Some out' /\ teq out x0 /\ teq out' x0.
Proof.
  destruct (pam_forward (PAM_new 16 (fun _ => 1%R) (fun _ => 2%R) (fun _ => 3%R)) x0) as [out|] eqn:E1;
    [|exfalso; revert E1; apply some_not_none; vm_compute; reflexivity].
  destruct (cam_forward CAM_new x0) as [out'|] eqn:E2; [|exfalso; revert E2; apply some_not_none; vm_compute; reflexivity].
  exists out, out'. split; [reflexivity|]. split; [reflexivity|].
  exact (conj (proj1 (zero_gate_identity 16 (fun _ => 1%R) (fun _ => 2%R) (fun _ => 3%R) x0 out out') E1)
              (proj2 (zero_gate_identity 16 (fun _ => 1%R) (fun _ => 2%R) (fun _ => 3%R) x0 out out') E2)).
Defined.

(** Value lemmas *)

Lemma get_elementwise f a b t idx :
  elementwise f a b = Some t ->
  get t idx = f (get a (bproj (shape a) idx)) (get b (bproj (shape b) idx)).
Proof.
  unfold elementwise. destruct (bshape (shape a) (shape b)); [|discriminate].
  intros H; inversion H; reflexivity.
Qed.

Lemma get_expand_as t u t' idx :
  expand_as t u = Some t' -> get t' idx = get t (bproj (shape t) idx).
Proof.
  unfold expand_as. destruct (bshape (shape t) (shape u)); [|discriminate].
  destruct (nat_list_eqb _ _); [|discriminate]. intros H; inversion H; reflexivity.
Qed.

Lemma get_max_last t t' idx :
  max_last_keepdim t = Some t' ->
  get t' idx = maxR (last_dim (shape t) - 1) (fun j => get t (set_last idx j)).
Proof.
  unfold max_last_keepdim. destruct (shape t) eqn:E; [discriminate|].
  destruct (last_dim (n :: l) =? 0)%nat; [discriminate|].
  intros H; inversion H; reflexivity.
Qed.

Lemma get_softmax t t' idx :
  softmax_last t = Some t' ->
  get t' idx = exp (get t idx) / sumR (last_dim (shape t)) (fun j => exp (get t (set_last idx j))).
Proof.
  unfold softmax_last. destruct (shape t) eqn:E; [discriminate|].
  intros H; inversion H; reflexivity.
Qed.

Lemma sumR_ext n f g : (forall j, (j < n)%nat -> f j = g j) -> sumR n f = sumR n g.
Proof.
  induction n as [|n IH]; intros H; simpl; [reflexivity|].
  rewrite IH by (intros; apply H; lia). rewrite H by lia. reflexivity.
Qed.

Lemma sumR_div n f d : sumR n (fun j => f j / d) = sumR n f / d.
Proof.
  induction n as [|n IH]; simpl.
  - unfold Rdiv. ring.
  - rewrite IH, Rdiv_plus_distr. reflexivity.
Qed.

Lemma sumR_pos n f : (0 < n)%nat -> (forall j, 0 < f j) -> 0 < sumR n f.
Proof.
  induction n as [|n IH]; intros Hn Hf; [lia|]. simpl.
  destruct n as [|n]; simpl.
  - rewrite Rplus_0_l. apply Hf.
  - apply Rplus_lt_0_compat; [apply IH; [lia | exact Hf] | apply Hf].
Qed.

Lemma exp_mono a b : a <= b -> exp a <= exp b.
Proof.
  intros H. destruct (Rle_lt_or_eq_dec _ _ H) as [Hlt | ->].
  - apply Rlt_le, exp_increasing, Hlt.
  - apply Rle_refl.
Qed.

(** Softmax of a row: nonnegative entries summing to one. *)
Lemma softmax_row t t' a b L i r :
  softmax_last t = Some t' -> shape t = [a; b; L] -> (0 < L)%nat ->
  (forall j, (j < L)%nat -> 0 <= get t' [i; r; j]) /\
  sumR L (fun j => get t' [i; r; j]) = 1.
Proof.
  intros Hs Ht HL.
  assert (Hv : forall j, get t' [i; r; j] =
            exp (get t [i; r; j]) / sumR L (fun k => exp (get t [i; r; k]))).
  { intros j. rewrite (get_softmax _ _ _ Hs), Ht. reflexivity. }
  assert (Hpos : 0 < sumR L (fun k => exp (get t [i; r; k])))
    by (apply sumR_pos; [exact HL | intros; apply exp_pos]).
  split.
  - intros j _. rewrite Hv. apply Rlt_le, Rdiv_pos_pos; [apply exp_pos | exact Hpos].
  - rewrite (sumR_ext _ _ (fun j => exp (get t [i; r; j]) / sumR L (fun k => exp (get t [i; r; k]))))
      by (intros; apply Hv).
    rewrite sumR_div. apply Rdiv_diag. apply Rgt_not_eq, Hpos.
Qed.

(** C4. Row-stochastic spatial attention: for any PAM parameters, the
    softmaxed similarity has shape [N; H*W; H*W] (when [H*W] is not 0), and every
    row of every batch element is non-negative and sums to 1. *)
Theorem pam_similarity_row_stochastic p x s :
  pam_attention p x = Some s ->
  exists n c h w mq L,
    shape x = [n; c; h; w] /\ shape s = [n; mq; L] /\
    ((h * w <> 0)%nat -> mq = (h * w)%nat /\ L = (h * w)%nat) /\
    forall b i, (b < n)%nat -> (i < mq)%nat ->
      (forall j, (j < L)%nat -> 0 <= get s [b; i; j]) /\
      sumR L (fun j => get s [b; i; j]) = 1.
Proof.
  intros Hs. pose proof Hs as Hshape.
  apply pam_attention_shape in Hshape as (n & c & h & w & mq & L & Hx & HsS & Hnz & HL).
  exists n, c, h, w, mq, L. split; [exact Hx|]. split; [exact HsS|]. split; [exact HL|].
  intros b i _ _.
  unfold pam_attention in Hs. rewrite Hx in Hs.
  destruct (conv2d (query_w p) _ 0 x) as [q|]; simpl in Hs; [|discriminate].
  destruct (reshape q _) as [q2|]; simpl in Hs; [|discriminate].
  destruct (transpose q2 _) as [qT|]; simpl in Hs; [|discriminate].
  destruct (conv2d (key_w p) _ 0 x) as [k|]; simpl in Hs; [|discriminate].
  destruct (reshape k _) as [k2|]; simpl in Hs; [|discriminate].
  destruct (bmm qT k2) as [sim|]; simpl in Hs; [|discriminate].
  pose proof (softmax_shape _ _ Hs) as Hss. rewrite HsS in Hss.
  apply (softmax_row _ _ n mq L b i Hs (eq_sym Hss)). nia.
Qed.

Lemma bproj_row_keep n m b i j :
  (b < n)%nat -> (i < m)%nat -> bproj [n; m; 1%nat] [b; i; j] = [b; i; O].
Proof.
  intros Hb Hi. unfold bproj. cbn [skipn bproj_aux length Nat.sub].
  destruct (Nat.eqb_spec n 1); destruct (Nat.eqb_spec m 1); simpl; repeat f_equal; lia.
Qed.

(** C2. Channel stabilisation in CAM: the attention weight of entry [j] of a
    row is the softmax of (row maximum - raw entry); the weights are therefore
    ordered inversely to the raw similarities, and the entry holding the row's
    maximum raw value gets the smallest weight of its row. *)
Theorem cam_inverted_ranking x raw att :
  cam_similarity x = Some raw -> cam_attention x = Some att ->
  exists n c, shape raw = [n; c; c] /\ shape att = [n; c; c] /\
    forall b i, (b < n)%nat -> (i < c)%nat ->
      let row_max := maxR (c - 1) (fun k => get raw [b; i; k]) in
      (forall j, (j < c)%nat ->
         get att [b; i; j] =
         exp (row_max - get raw [b; i; j]) /
         sumR c (fun k => exp (row_max - get raw [b; i; k]))) /\
      (forall j k, (j < c)%nat -> (k < c)%nat ->
         get raw [b; i; j] <= get raw [b; i; k] -> get att [b; i; k] <= get att [b; i; j]) /\
      (forall jmax, (jmax < c)%nat ->
         (forall k, (k < c)%nat -> get raw [b; i; k] <= get raw [b; i; jmax]) ->
         forall k, (k < c)%nat -> get att [b; i; jmax] <= get att [b; i; k]).
Proof.
  intros Hraw Hatt. pose proof Hraw as Hr.
  apply cam_similarity_shape in Hr as (n & c & h & w & Hx & HrS).
  unfold cam_attention in Hatt. rewrite Hraw in Hatt. simpl in Hatt.
  destruct (max_last_keepdim raw) as [mx|] eqn:Em; simpl in Hatt; [|discriminate].
  destruct (expand_as mx raw) as [mx2|] eqn:Ee; simpl in Hatt; [|discriminate].
  destruct (ew_sub mx2 raw) as [d|] eqn:Ed; simpl in Hatt; [|discriminate].
  pose proof (max_last_shape _ _ Em) as [HmS _]. rewrite HrS in HmS. simpl in HmS.
  pose proof (expand_as_shape _ _ _ Ee) as HeS. rewrite HrS in HeS.
  pose proof (elementwise_shape _ _ _ _ Ed) as HdS.
  rewrite HeS, HrS, bshape_same in HdS. injection HdS as HdS.
  pose proof (softmax_shape _ _ Hatt) as HaS.
  exists n, c. split; [exact HrS|]. split; [rewrite HaS; symmetry; exact HdS|].
  intros b i Hb Hi row_max.
  assert (Hd : forall j, (j < c)%nat -> get d [b; i; j] = row_max - get raw [b; i; j]).
  { intros j Hj. rewrite (get_elementwise _ _ _ _ _ Ed), HeS, HrS.
    assert (Hv : valid [n; c; c] [b; i; j] = true)
      by (simpl; rewrite !(proj2 (Nat.ltb_lt _ _)) by assumption; reflexivity).
    rewrite bproj_valid by exact Hv.
    rewrite (get_expand_as _ _ _ _ Ee), HmS, bproj_row_keep by assumption.
    rewrite (get_max_last _ _ _ Em), HrS. reflexivity. }
  assert (Ha : forall j, (j < c)%nat ->
            get att [b; i; j] = exp (row_max - get raw [b; i; j]) /
                               sumR c (fun k => exp (row_max - get raw [b; i; k]))).
  { intros j Hj. rewrite (get_softmax _ _ _ Hatt), <- HdS. simpl last_dim.
    rewrite Hd by exact Hj. f_equal. apply sumR_ext. intros k Hk. simpl.
    change (set_last [b; i; j] k) with [b; i; k]. rewrite Hd by exact Hk. reflexivity. }
  assert (Hpos : 0 < sumR c (fun k => exp (row_max - get raw [b; i; k])))
    by (apply sumR_pos; [lia | intros; apply exp_pos]).
  assert (Hord : forall j k, (j < c)%nat -> (k < c)%nat ->
            get raw [b; i; j] <= get raw [b; i; k] -> get att [b; i; k] <= get att [b; i; j]).
  { intros j k Hj Hk Hjk. rewrite (Ha j Hj), (Ha k Hk).
    unfold Rdiv. apply Rmult_le_compat_r; [apply Rlt_le, Rinv_0_lt_compat, Hpos|].
    apply exp_mono. lra. }
  split; [exact Ha|]. split; [exact Hord|].
  intros jm Hjm Hmax k Hk. apply Hord; auto.
Qed.

(** Success lemmas *)

Lemma conv2d_1x1_ok wt b x n ci h w co :
  shape x = [n; ci; h; w] -> shape wt = [co; ci; 1%nat; 1%nat] -> shape b = [co] ->
  (0 < h)%nat -> (0 < w)%nat ->
  exists y, conv2d wt b 0 x = Some y /\ shape y = [n; co; h; w].
Proof.
  intros Hx Hw Hb Hh Hw'. unfold conv2d. rewrite Hx, Hw, Hb.
  rewrite !Nat.eqb_refl.
  rewrite (proj2 (Nat.leb_le 1 (h + 2 * 0))) by lia.
  rewrite (proj2 (Nat.leb_le 1 (w + 2 * 0))) by lia. simpl.
  eexists. split; [reflexivity|]. simpl. repeat f_equal; lia.
Qed.

Lemma reshape_of_shape t tgt s :
  reshape_shape (shape t) tgt = Some s -> exists t', reshape t tgt = Some t' /\ shape t' = s.
Proof. intros H. unfold reshape. rewrite H. simpl. eexists; split; reflexivity. Qed.

Lemma reshape_shape_nhm_ok d0 d1 d2 d3 :
  (d0 <> 0)%nat -> (d2 * d3 <> 0)%nat ->
  reshape_shape [d0; d1; d2; d3] [Z.of_nat d0; (-1)%Z; Z.of_nat (d2 * d3)] =
  Some [d0; d1; (d2 * d3)%nat].
Proof.
  intros H0 H23. resolve_simpl.
  rewrite (proj2 (Nat.eqb_neq _ _) H23), (proj2 (Nat.eqb_neq _ _) H0). simpl.
  rewrite Nat.mul_1_r.
  rewrite (proj2 (Nat.eqb_neq (d0 * (d2 * d3)) 0)) by nia.
  replace (d0 * (d1 * (d2 * (d3 * 1))))%nat with (d1 * (d0 * (d2 * d3)))%nat by ring.
  rewrite Nat.Div0.mod_mul, Nat.div_mul by nia. reflexivity.
Qed.

Lemma reshape_shape_nhw_ok a b c d :
  (a <> 0)%nat -> (c <> 0)%nat -> (d <> 0)%nat ->
  reshape_shape [a; b; (c * d)%nat] [Z.of_nat a; (-1)%Z; Z.of_nat c; Z.of_nat d] =
  Some [a; b; c; d].
Proof.
  intros Ha Hc Hd. resolve_simpl.
  rewrite (proj2 (Nat.eqb_neq _ _) Hd), (proj2 (Nat.eqb_neq _ _) Hc),
          (proj2 (Nat.eqb_neq _ _) Ha). simpl.
  rewrite Nat.mul_1_r.
  rewrite (proj2 (Nat.eqb_neq (a * (c * d)) 0)) by nia.
  replace (a * (b * (c * d * 1)))%nat with (b * (a * (c * d)))%nat by ring.
  rewrite Nat.Div0.mod_mul, Nat.div_mul by nia. reflexivity.
Qed.

Lemma reshape_shape_nch_ok n c h w :
  (h * w <> 0)%nat ->
  reshape_shape [n; c; h; w] [Z.of_nat n; Z.of_nat c; Z.of_nat (h * w)] = Some [n; c; (h * w)%nat].
Proof.
  intros Hhw. resolve_simpl. rewrite (proj2 (Nat.eqb_neq _ _) Hhw).
  destruct (n =? 0)%nat; destruct (c =? 0)%nat; simpl;
  (replace (n * (c * (h * w * 1)))%nat with (n * (c * (h * (w * 1))))%nat by ring);
  rewrite Nat.eqb_refl; reflexivity.
Qed.

Lemma reshape_shape_nchw_ok n c h w :
  (h <> 0)%nat -> (w <> 0)%nat ->
  reshape_shape [n; c; (h * w)%nat] [Z.of_nat n; Z.of_nat c; Z.of_nat h; Z.of_nat w] =
  Some [n; c; h; w].
Proof.
  intros Hh Hw. resolve_simpl.
  rewrite (proj2 (Nat.eqb_neq _ _) Hw), (proj2 (Nat.eqb_neq _ _) Hh).
  destruct (n =? 0)%nat; destruct (c =? 0)%nat; simpl;
  (replace (n * (c * (h * w * 1)))%nat with (n * (c * (h * (w * 1))))%nat by ring);
  rewrite Nat.eqb_refl; reflexivity.
Qed.

Lemma transpose_021_ok t a b c :
  shape t = [a; b; c] -> exists t', transpose t [0; 2; 1]%nat = Some t' /\ shape t' = [a; c; b].
Proof. intros H. unfold transpose. rewrite H. simpl. eexists; split; reflexivity. Qed.

Lemma bmm_ok a c b m k n :
  shape a = [b; m; k] -> shape c = [b; k; n] ->
  exists t, bmm a c = Some t /\ shape t = [b; m; n].
Proof.
  intros Ha Hc. unfold bmm. rewrite Ha, Hc, !Nat.eqb_refl. simpl.
  eexists; split; reflexivity.
Qed.

Lemma softmax_ok t : shape t <> [] -> exists t', softmax_last t = Some t' /\ shape t' = shape t.
Proof.
  intros H. unfold softmax_last. destruct (shape t) eqn:E; [contradiction|].
  eexists; split; reflexivity.
Qed.

Lemma max_last_ok t a b L :
  shape t = [a; b; L] -> (L <> 0)%nat ->
  exists t', max_last_keepdim t = Some t' /\ shape t' = [a; b; 1%nat].
Proof.
  intros H HL. unfold max_last_keepdim. rewrite H.
  change (last_dim [a; b; L]) with L. rewrite (proj2 (Nat.eqb_neq _ _) HL). eexists; split; reflexivity.
Qed.

Lemma nat_list_eqb_refl s : nat_list_eqb s s = true.
Proof. induction s; simpl; [reflexivity|]. rewrite Nat.eqb_refl, IHs. reflexivity. Qed.

Lemma expand_as_ok t u a b L :
  shape t = [a; b; 1%nat] -> shape u = [a; b; L] ->
  exists t', expand_as t u = Some t' /\ shape t' = [a; b; L].
Proof.
  intros Ht Hu. unfold expand_as. rewrite Ht, Hu.
  assert (Hb : bshape [a; b; 1%nat] [a; b; L] = Some [a; b; L]).
  { unfold bshape. cbn [rev app]. cbn [bshape_rev option_bind].
    rewrite !Nat.eqb_refl. destruct (Nat.eqb_spec 1 L) as [<- | HL]; reflexivity. }
  rewrite Hb, nat_list_eqb_refl. eexists; split; reflexivity.
Qed.

Lemma elementwise_ok f a b :
  shape a = shape b -> exists t, elementwise f a b = Some t /\ shape t = shape b.
Proof.
  intros H. unfold elementwise. rewrite H, bshape_same. simpl. eexists; split; reflexivity.
Qed.

Lemma residual_ok gamma feat x :
  shape gamma = [1%nat] -> shape feat = shape x -> shape x <> [] ->
  exists out, residual gamma feat x = Some out /\ shape out = shape x.
Proof.
  intros Hg Hf Hx. unfold residual, ew_mul, ew_add, elementwise.
  rewrite Hg, Hf, bshape_one by exact Hx. simpl. rewrite bshape_same. simpl.
  eexists; split; reflexivity.
Qed.

Ltac step L := let t := fresh "t" in let E := fresh "E" in let S := fresh "S" in
  destruct L as (t & E & S); rewrite E; cbn [option_bind].

Lemma pam_attention_ok c wq wk wv x n h w :
  shape x = [n; c; h; w] -> (0 < n)%nat -> (0 < h)%nat -> (0 < w)%nat ->
  exists s, pam_attention (PAM_new c wq wk wv) x = Some s /\ shape s = [n; (h * w)%nat; (h * w)%nat].
Proof.
  intros Hx Hn Hh Hw. unfold pam_attention. rewrite Hx.
  step (conv2d_1x1_ok (query_w (PAM_new c wq wk wv)) (query_b (PAM_new c wq wk wv)) x
          n c h w (c / 8)%nat Hx eq_refl eq_refl Hh Hw).
  step (reshape_of_shape t [Z.of_nat n; (-1)%Z; Z.of_nat (h * w)] [n; (c / 8)%nat; (h * w)%nat]
          ltac:(rewrite S; apply reshape_shape_nhm_ok; nia)).
  step (transpose_021_ok t0 _ _ _ S0).
  step (conv2d_1x1_ok (key_w (PAM_new c wq wk wv)) (key_b (PAM_new c wq wk wv)) x
          n c h w (c / 8)%nat Hx eq_refl eq_refl Hh Hw).
  step (reshape_of_shape t2 [Z.of_nat n; (-1)%Z; Z.of_nat (h * w)] [n; (c / 8)%nat; (h * w)%nat]
          ltac:(rewrite S2; apply reshape_shape_nhm_ok; nia)).
  step (bmm_ok t1 t3 _ _ _ _ S1 S3).
  step (softmax_ok t4 ltac:(rewrite S4; discriminate)).
  eexists; split; [reflexivity|]. rewrite S5, S4. reflexivity.
Qed.

Lemma pam_forward_ok c wq wk wv x n h w :
  shape x = [n; c; h; w] -> (0 < n)%nat -> (0 < h)%nat -> (0 < w)%nat ->
  exists out, pam_forward (PAM_new c wq wk wv) x = Some out /\ shape out = [n; c; h; w].
Proof.
  intros Hx Hn Hh Hw. unfold pam_forward. rewrite Hx.
  step (pam_attention_ok c wq wk wv x n h w Hx Hn Hh Hw).
  step (conv2d_1x1_ok (value_w (PAM_new c wq wk wv)) (value_b (PAM_new c wq wk wv)) x
          n c h w c Hx eq_refl eq_refl Hh Hw).
  step (reshape_of_shape t0 [Z.of_nat n; (-1)%Z; Z.of_nat (h * w)] [n; c; (h * w)%nat]
          ltac:(rewrite S0; apply reshape_shape_nhm_ok; nia)).
  step (transpose_021_ok t _ _ _ S).
  step (bmm_ok t1 t2 _ _ _ _ S1 S2).
  step (reshape_of_shape t3 [Z.of_nat n; (-1)%Z; Z.of_nat h; Z.of_nat w] [n; c; h; w]
          ltac:(rewrite S3; apply reshape_shape_nhw_ok; lia)).
  destruct (residual_ok (pam_gamma (PAM_new c wq wk wv)) t4 x eq_refl
              ltac:(rewrite S4, Hx; reflexivity) ltac:(rewrite Hx; discriminate)) as (out & Eo & So).
  exists out. split; [exact Eo|]. rewrite So, Hx. reflexivity.
Qed.

Lemma cam_forward_ok x n c h w :
  shape x = [n; c; h; w] -> (0 < c)%nat -> (0 < h)%nat -> (0 < w)%nat ->
  exists out, cam_forward CAM_new x = Some out /\ shape out = [n; c; h; w].
Proof.
  intros Hx Hc Hh Hw. unfold cam_forward. rewrite Hx.
  assert (Hq : reshape_shape (shape x) [Z.of_nat n; Z.of_nat c; Z.of_nat (h * w)] =
               Some [n; c; (h * w)%nat]) by (rewrite Hx; apply reshape_shape_nch_ok; nia).
  assert (Ha : exists s, cam_attention x = Some s /\ shape s = [n; c; c]).
  { unfold cam_attention, cam_similarity, ew_sub. rewrite Hx.
    step (reshape_of_shape x _ _ Hq).
    step (transpose_021_ok t _ _ _ S).
    step (bmm_ok t t0 _ _ _ _ S S0).
    step (max_last_ok t1 _ _ _ S1 ltac:(lia)).
    step (expand_as_ok t2 t1 _ _ _ S2 S1).
    step (elementwise_ok Rminus t3 t1 ltac:(rewrite S3, S1; reflexivity)).
    step (softmax_ok t4 ltac:(rewrite S4, S1; discriminate)).
    eexists; split; [reflexivity|]. rewrite S5, S4, S1. reflexivity. }
  step Ha.
  step (reshape_of_shape x _ _ Hq).
  step (bmm_ok t t0 _ _ _ _ S S0).
  step (reshape_of_shape t1 [Z.of_nat n; Z.of_nat c; Z.of_nat h; Z.of_nat w] [n; c; h; w]
          ltac:(rewrite S1; apply reshape_shape_nchw_ok; lia)).
  destruct (residual_ok (cam_gamma CAM_new) t2 x eq_refl
              ltac:(rewrite S2, Hx; reflexivity) ltac:(rewrite Hx; discriminate)) as (out & Eo & So).
  exists out. split; [exact Eo|]. rewrite So, Hx. reflexivity.
Qed.

(** C3. Shape preservation: on an input of shape [N; C; H; W], [PAM(C)] and
    [CAM()] both return a tensor of shape [N; C; H; W].  The extents are taken
    positive (with a zero extent the [-1] of [paddle.reshape] cannot be
    inferred, and the maximum over an empty axis is refused); divisibility of
    [C] by 8 is not needed. *)
Theorem attention_shape_preserved x n c h w wq wk wv :
  shape x = [n; c; h; w] -> (0 < n)%nat -> (0 < c)%nat -> (0 < h)%nat -> (0 < w)%nat ->
  (exists out, pam_forward (PAM_new c wq wk wv) x = Some out /\ shape out = [n; c; h; w]) /\
  (exists out, cam_forward CAM_new x = Some out /\ shape out = [n; c; h; w]).
Proof.
  intros Hx Hn Hc Hh Hw. split.
  - apply pam_forward_ok; assumption.
  - apply cam_forward_ok; assumption.
Qed.


Lemma attention_shape_preserved_witness :
  (exists out, pam_forward (PAM_new 16 (fun _ => 1%R) (fun _ => 2%R) (fun _ => 3%R)) x0 = Some out /\
     shape out = [2; 16; 3; 2]%nat) /\
  (exists out, cam_forward CAM_new x0 = Some out /\ shape out = [2; 16; 3; 2]%nat).
Proof. apply (attention_shape_preserved x0 2 16 3 2); [reflexivity | lia | lia | lia | lia]. Defined.

Lemma pam_similarity_row_stochastic_witness :
  exists s, pam_attention P0 x0 = Some s /\
    exists n c h w mq L, shape x0 = [n; c; h; w] /\ shape s = [n; mq; L] /\
      ((h * w <> 0)%nat -> mq = (h * w)%nat /\ L = (h * w)%nat) /\
      forall b i, (b < n)%nat -> (i < mq)%nat ->
        (forall j, (j < L)%nat -> 0 <= get s [b; i; j]) /\
        sumR L (fun j => get s [b; i; j]) = 1.
Proof.
  destruct (pam_attention P0 x0) as [s|] eqn:E;
    [|exfalso; revert E; apply some_not_none; vm_compute; reflexivity].
  exists s. split; [reflexivity|]. exact (pam_similarity_row_stochastic P0 x0 s E).
Defined.

Lemma cam_inverted_ranking_witness :
  exists raw att, cam_similarity x0 = Some raw /\ cam_attention x0 = Some att /\
    exists n c, shape raw = [n; c; c] /\ shape att = [n; c; c].
Proof.
  destruct (cam_similarity x0) as [raw|] eqn:E1;
    [|exfalso; revert E1; apply some_not_none; vm_compute; reflexivity].
  destruct (cam_attention x0) as [att|] eqn:E2;
    [|exfalso; revert E2; apply some_not_none; vm_compute; reflexivity].
  exists raw, att. split; [reflexivity|]. split; [reflexivity|].
  destruct (cam_inverted_ranking x0 raw att E1 E2) as (n & c & H1 & H2 & _).
  exists n, c. split; assumption.
Defined.

(** ** DAHead and DANet *)

Lemma py_index_last {A} (l : list A) d : l <> [] -> py_index l (-1) = Some (last l d).
Proof.
  intros Hl. unfold py_index. simpl.
  destruct l as [|a l'] using rev_ind; [contradiction|]. clear IHl'.
  rewrite length_app. simpl.
  replace (Z.of_nat (length l' + 1) + -1)%Z with (Z.of_nat (length l')) by lia.
  rewrite (proj2 (Z.ltb_ge _ _)) by lia. rewrite Nat2Z.id.
  rewrite nth_error_app2 by lia. rewrite Nat.sub_diag. simpl. rewrite last_last. reflexivity.
Qed.

(** C6. DAHead reads only the last feature map: two non-empty lists with the
    same last element give the same forward result, for the same parameters,
    mode, dropout draws and draw counter. *)
Theorem dahead_uses_last_only p l1 l2 d :
  l1 <> [] -> l2 <> [] -> last l1 d = last l2 d ->
  forall c k, dahead_forward p l1 c k = dahead_forward p l2 c k.
Proof.
  intros H1 H2 Hl c k. unfold dahead_forward, dahead_branches, mbind, lift.
  rewrite (py_index_last l1 d H1), (py_index_last l2 d H2), Hl. reflexivity.
Qed.

(** C9. [aux_head_pam] is never applied: two heads that differ only in it give
    the same forward result on every input, mode and draw counter. *)
Theorem aux_head_pam_unused cc pc pm cm c1 c2 a1 a2 ac ch l c k :
  dahead_forward (mk_DAHead cc pc pm cm c1 c2 a1 ac ch) l c k =
  dahead_forward (mk_DAHead cc pc pm cm c1 c2 a2 ac ch) l c k.
Proof. reflexivity. Qed.

(** C7. Missing pretrained path: when [os.path.exists] answers no,
    construction ends in an error, the loader is never called, and if the
    modules themselves were built the error is the missing-path one. *)
Theorem pretrained_missing_fails fs loader num_classes bb p idxs draw :
  fs p = false ->
  exists e, fst (danet_new fs loader num_classes bb (Some p) idxs draw) = Err e /\
    (forall q, ~ In (LoadPretrained q) (snd (danet_new fs loader num_classes bb (Some p) idxs draw))) /\
    (forall m, danet_build num_classes bb idxs draw = Ok m -> e = PretrainedNotFound p).
Proof.
  intros Hp. unfold danet_new.
  destruct (danet_build num_classes bb idxs draw) as [m|e] eqn:Eb.
  - simpl. rewrite Hp. exists (PretrainedNotFound p). simpl.
    split; [reflexivity|]. split; [intros q [H|[]]; discriminate|]. reflexivity.
  - exists e. simpl. split; [reflexivity|]. split; [intros q []|]. discriminate.
Qed.

(** C10. [pretrained=None]: [init_weight] returns the network unchanged,
    without a filesystem query or a load; construction is exactly the building
    of the modules, and the head is the one [DAHead]'s own initialization
    produced. *)
Theorem pretrained_none_noop fs loader num_classes bb idxs draw :
  (forall m, init_weight fs loader m None = (Ok m, [])) /\
  danet_new fs loader num_classes bb None idxs draw = (danet_build num_classes bb idxs draw, []) /\
  match danet_build num_classes bb idxs draw with
  | Ok m => backbone m = bb /\ exists in_channels, dahead_new num_classes in_channels draw = Ok (head m)
  | Err _ => True
  end.
Proof.
  split; [reflexivity|]. unfold danet_new.
  destruct (danet_build num_classes bb idxs draw) as [m|e] eqn:Eb; [|split; reflexivity].
  split; [reflexivity|]. unfold danet_build in Eb.
  destruct idxs as [idxs|]; [|discriminate].
  destruct (map_option _ idxs) as [ics|]; [|discriminate].
  destruct (dahead_new num_classes ics draw) as [h|e] eqn:Eh; [|discriminate].
  injection Eb as <-. split; [reflexivity|]. exists ics. exact Eh.
Qed.

(** Inversion of the monadic pipelines *)

Lemma mbind_some {A B} (m : M A) (f : A -> M B) c k r k' :
  mbind m f c k = Some (r, k') -> exists a k1, m c k = Some (a, k1) /\ f a c k1 = Some (r, k').
Proof.
  unfold mbind. destruct (m c k) as [[a k1]|]; [|discriminate]. intros H; eauto.
Qed.

Lemma lift_some {A} (o : option A) c k a k' : lift o c k = Some (a, k') -> o = Some a /\ k' = k.
Proof. unfold lift. destruct o; [|discriminate]. intros H; injection H as <- <-; auto. Qed.

Lemma mret_some {A} (a : A) c k a' k' : mret a c k = Some (a', k') -> a' = a /\ k' = k.
Proof. unfold mret. intros H; injection H as <- <-; auto. Qed.

Ltac inv_m H :=
  repeat match type of H with
  | mbind _ _ _ _ = Some _ =>
      let a := fresh "a" in let k := fresh "k" in let E := fresh "E" in
      apply mbind_some in H as (a & k & E & H)
  end.

Ltac clean_m :=
  repeat match goal with
  | H : lift _ _ _ = Some _ |- _ =>
      let Ho := fresh "Ho" in let Hk := fresh "Hk" in
      apply lift_some in H as [Ho Hk]; subst
  | H : mret _ _ _ = Some _ |- _ =>
      let Ho := fresh "Ho" in let Hk := fresh "Hk" in
      apply mret_some in H as [Ho Hk]; subst
  | H : (_, _) = (_, _) |- _ => injection H; clear H; intros; subst
  end.

Lemma dahead_branches_inv p l c k cf pf k' :
  dahead_branches p l c k = Some ((cf, pf), k') ->
  exists feats a a' b b' ka kb kc,
    py_index l (-1) = Some feats /\
    conv_bn_relu (channel_conv p) feats c k = Some (a, ka) /\
    cam_forward (cam p) a = Some a' /\
    conv_bn_relu (conv1 p) a' c ka = Some (cf, kb) /\
    conv_bn_relu (position_conv p) feats c kb = Some (b, kc) /\
    pam_forward (pam p) b = Some b' /\
    conv_bn_relu (conv2 p) b' c kc = Some (pf, k').
Proof.
  unfold dahead_branches. intros H. inv_m H. clean_m.
  do 8 eexists. repeat split; eassumption.
Qed.

Lemma dahead_forward_inv p l c k out k' :
  dahead_forward p l c k = Some (out, k') ->
  exists cf pf k1 feats_sum cl pl logit k2 k3,
    dahead_branches p l c k = Some ((cf, pf), k1) /\
    ew_add pf cf = Some feats_sum /\
    aux_forward (aux_head_cam p) cf c k1 = Some (cl, k2) /\
    aux_forward (aux_head_cam p) pf c k2 = Some (pl, k3) /\
    aux_forward (cls_head p) feats_sum c k3 = Some (logit, k') /\
    out = [logit; cl; pl].
Proof.
  unfold dahead_forward. intros H. apply mbind_some in H as ([cf pf] & k1 & E & H).
  inv_m H. clean_m. do 9 eexists. repeat split; eassumption.
Qed.

Lemma batch_norm_shape bn x c k y k' :
  batch_norm bn x c k = Some (y, k') -> shape y = shape x /\ k' = k.
Proof.
  unfold batch_norm. destruct (shape x) as [|n [|ch [|h [|w [|]]]]] eqn:Ex; try discriminate.
  destruct (_ && _)%bool; [|discriminate]. intros H; injection H as <- <-. simpl. auto.
Qed.

Lemma conv_bn_relu_shape m x c k y k' :
  conv_bn_relu m x c k = Some (y, k') ->
  k' = k /\ exists n ci h w co h' w', shape x = [n; ci; h; w] /\ shape y = [n; co; h'; w'].
Proof.
  unfold conv_bn_relu. intros H. inv_m H. clean_m.
  apply batch_norm_shape in E0 as [Hs ->]. split; [reflexivity|].
  apply conv2d_shape in Ho as (n & ci & h & w & co & kh & kw & Hx & _ & _ & _ & Hy).
  simpl. rewrite Hs, Hy. do 7 eexists. split; [exact Hx | reflexivity].
Qed.

Lemma dropout2d_shape p x c k y k' :
  dropout2d p x c k = Some (y, k') -> shape y = shape x.
Proof.
  unfold dropout2d. destruct (shape x) as [|n [|ch [|h [|w [|]]]]] eqn:Ex; try discriminate.
  destruct (ctx_mode c); intros H; injection H as <- <-; simpl; auto.
Qed.

Lemma aux_forward_shape a x c k y k' o ci :
  shape (aux_weight a) = [o; ci; 1%nat; 1%nat] ->
  aux_forward a x c k = Some (y, k') ->
  exists n h w, hd O (shape x) = n /\ shape y = [n; o; h; w].
Proof.
  intros Hw. unfold aux_forward. intros H. inv_m H. clean_m.
  apply dropout2d_shape in E.
  apply conv2d_shape in Ho as (n & ci' & h & w & co & kh & kw & Hx & Hw' & _ & _ & Hy).
  rewrite Hw in Hw'. injection Hw' as <- <- <- <-.
  rewrite E in Hx. rewrite Hx, Hy. eauto.
Qed.

Lemma residual_shape gamma feat x out :
  shape gamma = [1%nat] -> shape feat = shape x -> shape x <> [] ->
  residual gamma feat x = Some out -> shape out = shape x.
Proof.
  intros Hg Hf Hx. unfold residual, ew_mul, ew_add, elementwise.
  rewrite Hg, Hf, bshape_one by exact Hx. simpl. rewrite bshape_same. simpl.
  intros H; injection H as <-. reflexivity.
Qed.

Lemma cam_forward_shape p x out :
  shape (cam_gamma p) = [1%nat] -> cam_forward p x = Some out -> shape out = shape x.
Proof.
  intros Hg H. apply cam_forward_feat in H as (feat & Hx & Hf & Hr).
  exact (residual_shape _ _ _ _ Hg Hf Hx Hr).
Qed.

Lemma pam_forward_shape p x out k :
  shape (pam_gamma p) = [1%nat] -> shape (value_w p) = [k; k; 1%nat; 1%nat] ->
  pam_forward p x = Some out -> shape out = shape x.
Proof.
  intros Hg Hv H. apply (pam_forward_feat p x out k Hv) in H as (feat & Hx & Hf & Hr).
  exact (residual_shape _ _ _ _ Hg Hf Hx Hr).
Qed.

Lemma bshape_rev_last ra rb x r :
  length ra = length rb -> bshape_rev (ra ++ [x]) (rb ++ [x]) = Some r ->
  exists r', r = r' ++ [x].
Proof.
  revert rb r. induction ra as [|a ra IH]; intros [|b rb] r Hl H; try discriminate.
  - simpl in H. rewrite Nat.eqb_refl in H. injection H as <-. exists []. reflexivity.
  - simpl in H. injection Hl as Hl.
    destruct (bshape_rev (ra ++ [x]) (rb ++ [x])) as [r1|] eqn:E; simpl in H; [|discriminate].
    destruct (IH rb r1 Hl E) as [r' ->].
    destruct (a =? b)%nat; [injection H as <-; exists (a :: r'); reflexivity|].
    destruct (a =? 1)%nat; [injection H as <-; exists (b :: r'); reflexivity|].
    destruct (b =? 1)%nat; [injection H as <-; exists (a :: r'); reflexivity|discriminate].
Qed.

Lemma bshape_batch n s t r :
  length s = length t -> bshape (n :: s) (n :: t) = Some r -> hd O r = n.
Proof.
  intros Hl. unfold bshape. simpl.
  destruct (bshape_rev (rev s ++ [n]) (rev t ++ [n])) as [r1|] eqn:E; simpl; [|discriminate].
  apply bshape_rev_last in E as [r' ->]; [|rewrite !length_rev; exact Hl].
  intros H; injection H as <-. rewrite rev_app_distr. reflexivity.
Qed.

Lemma resize_shape t H W o :
  resize_bilinear t [H; W] = Some o ->
  exists n c h w, shape t = [n; c; h; w] /\ shape o = [n; c; H; W].
Proof.
  unfold resize_bilinear. destruct (shape t) as [|n [|c [|h [|w [|]]]]]; try discriminate.
  intros E; injection E as <-. simpl. eauto 10.
Qed.

Lemma py_index_In {A} (l : list A) i a : py_index l i = Some a -> In a l.
Proof.
  unfold py_index. destruct (i <? 0)%Z; [destruct (_ <? 0)%Z; [discriminate|]|];
    apply nth_error_In.
Qed.

Lemma map_option_In {A B} (f : A -> option B) l l' b :
  map_option f l = Some l' -> In b l' -> exists a, In a l /\ f a = Some b.
Proof.
  revert l'. induction l as [|a l IH]; intros l' H Hb; simpl in H.
  - injection H as <-. destruct Hb.
  - destruct (f a) as [b'|] eqn:Ef; simpl in H; [|discriminate].
    destruct (map_option f l) as [r|] eqn:Er; simpl in H; [|discriminate].
    injection H as <-. destruct Hb as [<-|Hb1]; [exists a; split; [left; reflexivity | exact Ef]|].
    destruct (IH r eq_refl Hb1) as (a' & Ha & Hf). exists a'; split; [right; exact Ha | exact Hf].
Qed.

Lemma head_shapes_ok_spec nc p :
  head_shapes_ok nc p = true ->
  shape (pam_gamma (pam p)) = [1%nat] /\ shape (cam_gamma (cam p)) = [1%nat] /\
  (exists k, shape (value_w (pam p)) = [k; k; 1%nat; 1%nat]) /\
  (exists ci, shape (aux_weight (aux_head_cam p)) = [nc; ci; 1%nat; 1%nat]) /\
  (exists ci, shape (aux_weight (cls_head p)) = [nc; ci; 1%nat; 1%nat]).
Proof.
  unfold head_shapes_ok. intros H.
  apply andb_prop in H as [H H5]. apply andb_prop in H as [H H4].
  apply andb_prop in H as [H H3]. apply andb_prop in H as [H1 H2].
  assert (Hl : forall a b, nat_list_eqb a b = true -> a = b).
  { induction a as [|x a IH]; intros [|y b] E; simpl in E; try discriminate; auto.
    apply andb_prop in E as [E1 E2]. apply Nat.eqb_eq in E1 as ->. f_equal. auto. }
  split; [apply Hl, H1|]. split; [apply Hl, H2|].
  split; [|split].
  - destruct (shape (value_w (pam p))) as [|k [|k' [|[|[|]] [|[|[|]] [|]]]]]; try discriminate.
    apply Nat.eqb_eq in H3 as ->. eauto.
  - destruct (shape (aux_weight (aux_head_cam p))) as [|o [|ci [|[|[|]] [|[|[|]] [|]]]]]; try discriminate.
    apply Nat.eqb_eq in H4 as ->. eauto.
  - destruct (shape (aux_weight (cls_head p))) as [|o [|ci [|[|[|]] [|[|[|]] [|]]]]]; try discriminate.
    apply Nat.eqb_eq in H5 as ->. eauto.
Qed.

Lemma conv_bn_relu_batch m x c k y k' N :
  conv_bn_relu m x c k = Some (y, k') -> hd O (shape x) = N ->
  exists co h w, shape y = [N; co; h; w].
Proof.
  intros H Hn. apply conv_bn_relu_shape in H as (_ & n & ci & h & w & co & h' & w' & Hx & Hy).
  rewrite Hx in Hn. simpl in Hn. subst. eauto.
Qed.

Lemma dahead_branches_batch p l c k cf pf k' N :
  shape (pam_gamma (pam p)) = [1%nat] -> shape (cam_gamma (cam p)) = [1%nat] ->
  (exists kv, shape (value_w (pam p)) = [kv; kv; 1%nat; 1%nat]) ->
  dahead_branches p l c k = Some ((cf, pf), k') ->
  (forall f, In f l -> hd O (shape f) = N) ->
  (exists co h w, shape cf = [N; co; h; w]) /\ (exists co h w, shape pf = [N; co; h; w]).
Proof.
  intros Hpg Hcg [kv Hv] H Hl.
  apply dahead_branches_inv in H as (feats & a & a' & b & b' & ka & kb & kc & Ef & E1 & E2 & E3 & E4 & E5 & E6).
  assert (HN : hd O (shape feats) = N) by (apply Hl, (py_index_In _ _ _ Ef)).
  split.
  - destruct (conv_bn_relu_batch _ _ _ _ _ _ _ E1 HN) as (co & h & w & Ha).
    apply cam_forward_shape in E2; [|exact Hcg].
    apply (conv_bn_relu_batch _ _ _ _ _ _ N E3). rewrite E2, Ha. reflexivity.
  - destruct (conv_bn_relu_batch _ _ _ _ _ _ _ E4 HN) as (co & h & w & Hb).
    apply (pam_forward_shape _ _ _ kv Hpg Hv) in E5.
    apply (conv_bn_relu_batch _ _ _ _ _ _ N E6). rewrite E5, Hb. reflexivity.
Qed.

(** C8. DANet.forward: on an image of shape [N; 3; H; W], with a head whose
    applied 1x1 convolutions have [num_classes] outputs and a backbone that
    returns batch-[N] feature maps, a successful forward pass returns exactly
    three tensors: the bilinear resizes to [H; W] of the head's
    [[logit; cam_logit; pam_logit]], in that order, each of shape
    [N; num_classes; H; W]. *)
Theorem danet_forward_resized_logits m x c k outs k' N H W num_classes :
  shape x = [N; 3%nat; H; W] ->
  head_shapes_ok num_classes (head m) = true ->
  (forall fs k1, backbone_forward (backbone m) x c k = Some (fs, k1) ->
     forall f, In f fs -> hd O (shape f) = N) ->
  danet_forward m x c k = Some (outs, k') ->
  exists fs k1 idxs sel logit cam_logit pam_logit o1 o2 o3,
    backbone_forward (backbone m) x c k = Some (fs, k1) /\
    backbone_indices m = Some idxs /\
    map_option (py_index fs) idxs = Some sel /\
    dahead_forward (head m) sel c k1 = Some ([logit; cam_logit; pam_logit], k') /\
    outs = [o1; o2; o3] /\
    resize_bilinear logit [H; W] = Some o1 /\
    resize_bilinear cam_logit [H; W] = Some o2 /\
    resize_bilinear pam_logit [H; W] = Some o3 /\
    shape o1 = [N; num_classes; H; W] /\
    shape o2 = [N; num_classes; H; W] /\
    shape o3 = [N; num_classes; H; W].
Proof.
  intros Hx Hok Hbb Hf.
  apply head_shapes_ok_spec in Hok as (Hpg & Hcg & Hv & [ci1 Hw1] & [ci2 Hw2]).
  unfold danet_forward in Hf. inv_m Hf. clean_m.
  rename a into fs, a0 into idxs, a1 into sel, a2 into preds.
  pose proof E2 as Eh.
  apply dahead_forward_inv in E2
    as (cf & pf & kb & fsum & cl & pl & logit & kc & kp & Eb & Es & Ec & Ep & El & ->).
  rewrite Hx in Ho. simpl in Ho.
  destruct (resize_bilinear logit [H; W]) as [o1|] eqn:R1; simpl in Ho; [|discriminate].
  destruct (resize_bilinear cl [H; W]) as [o2|] eqn:R2; simpl in Ho; [|discriminate].
  destruct (resize_bilinear pl [H; W]) as [o3|] eqn:R3; simpl in Ho; [|discriminate].
  injection Ho as <-.
  assert (Hsel : forall f, In f sel -> hd O (shape f) = N).
  { intros f Hin. destruct (map_option_In _ _ _ _ Ho0 Hin) as (i & _ & Hi).
    exact (Hbb _ _ E f (py_index_In _ _ _ Hi)). }
  destruct (dahead_branches_batch _ _ _ _ _ _ _ N Hpg Hcg Hv Eb Hsel)
    as [(co1 & h1 & w1 & Hcf) (co2 & h2 & w2 & Hpf)].
  assert (Hsum : hd O (shape fsum) = N).
  { apply elementwise_shape in Es. rewrite Hpf, Hcf in Es.
    exact (bshape_batch N [co2; h2; w2] [co1; h1; w1] _ eq_refl Es). }
  destruct (aux_forward_shape _ _ _ _ _ _ _ _ Hw2 El) as (n1 & hl & wl & Hn1 & Hl).
  destruct (aux_forward_shape _ _ _ _ _ _ _ _ Hw1 Ec) as (n2 & hc & wc & Hn2 & Hc).
  destruct (aux_forward_shape _ _ _ _ _ _ _ _ Hw1 Ep) as (n3 & hp & wp & Hn3 & Hp).
  rewrite Hsum in Hn1. rewrite Hcf in Hn2. rewrite Hpf in Hn3. simpl in Hn2, Hn3. subst n1 n2 n3.
  destruct (resize_shape _ _ _ _ R1) as (? & ? & ? & ? & S1 & T1).
  destruct (resize_shape _ _ _ _ R2) as (? & ? & ? & ? & S2 & T2).
  destruct (resize_shape _ _ _ _ R3) as (? & ? & ? & ? & S3 & T3).
  rewrite Hl in S1. rewrite Hc in S2. rewrite Hp in S3.
  injection S1; intros; subst. injection S2; intros; subst. injection S3; intros; subst.
  do 10 eexists. repeat split; eassumption.
Qed.

Lemma valid4 a b c d idx :
  valid [a; b; c; d] idx = true ->
  exists i1 i2 i3 i4, idx = [i1; i2; i3; i4] /\
    (i1 < a)%nat /\ (i2 < b)%nat /\ (i3 < c)%nat /\ (i4 < d)%nat.
Proof.
  destruct idx as [|i1 [|i2 [|i3 [|i4 [|]]]]]; simpl; try discriminate;
    rewrite ?andb_false_r; try discriminate.
  intros H. rewrite andb_true_r in H.
  repeat (apply andb_prop in H as [?H H]). apply Nat.ltb_lt in H.
  repeat match goal with Hb : (_ <? _)%nat = true |- _ => apply Nat.ltb_lt in Hb end.
  do 4 eexists. repeat split; eassumption.
Qed.

Lemma conv2d_teq wt b pd x y t t' :
  teq x y -> conv2d wt b pd x = Some t -> conv2d wt b pd y = Some t' -> teq t t'.
Proof.
  intros [Hs Hv]. unfold conv2d. rewrite <- Hs.
  destruct (shape x) as [|n [|ci [|h [|w [|]]]]] eqn:Ex; try discriminate.
  destruct (shape wt) as [|co [|ci' [|kh [|kw [|]]]]]; try discriminate.
  destruct (shape b) as [|co' [|]]; try discriminate.
  destruct (_ && _)%bool; [|discriminate].
  intros H1 H2. injection H1 as <-. injection H2 as <-.
  split; [reflexivity|]. intros idx Hidx. simpl in Hidx.
  apply valid4 in Hidx as (bi & o & i & j & -> & Hb & _ & _ & _). simpl.
  f_equal. apply sumR_ext. intros cc Hc. apply sumR_ext. intros u _. apply sumR_ext. intros v _.
  f_equal. unfold padded. rewrite <- Hs, Ex. simpl.
  destruct ((i + u <? pd)%nat || (j + v <? pd)%nat)%bool; [reflexivity|].
  destruct (i + u - pd <? h)%nat eqn:E1; [|reflexivity].
  destruct (j + v - pd <? w)%nat eqn:E2; [|reflexivity]. simpl.
  apply Hv. simpl.
  rewrite (proj2 (Nat.ltb_lt bi n)), (proj2 (Nat.ltb_lt cc ci)), E1, E2 by assumption.
  reflexivity.
Qed.

Lemma aux_forward_eval a x c k y k' :
  ctx_mode c = Eval -> aux_forward a x c k = Some (y, k') ->
  conv2d (aux_weight a) (aux_bias a) 0 x = Some y.
Proof.
  intros Hm H. unfold aux_forward in H. inv_m H. clean_m.
  unfold dropout2d in E. rewrite Hm in E.
  destruct (shape x) as [|n [|ch [|h [|w [|]]]]]; try discriminate.
  injection E as <- <-. exact Ho.
Qed.

(** C5 (amended). Both auxiliary logits come from [aux_head_cam]: the channel
    one from the refined channel features, the position one from the refined
    position features with the next dropout draw.  In eval mode, where dropout
    is the identity, equal refined features give equal auxiliary logits. *)
Theorem aux_logits_shared_head p l c k out k' :
  dahead_forward p l c k = Some (out, k') ->
  exists cf pf k1 k2 k3 logit cl pl,
    dahead_branches p l c k = Some ((cf, pf), k1) /\
    aux_forward (aux_head_cam p) cf c k1 = Some (cl, k2) /\
    aux_forward (aux_head_cam p) pf c k2 = Some (pl, k3) /\
    out = [logit; cl; pl] /\
    (ctx_mode c = Eval -> teq cf pf -> teq cl pl).
Proof.
  intros H.
  apply dahead_forward_inv in H as (cf & pf & k1 & fsum & cl & pl & logit & k2 & k3 & Eb & _ & Ec & Ep & _ & ->).
  exists cf, pf, k1, k2, k3, logit, cl, pl.
  split; [exact Eb|]. split; [exact Ec|]. split; [exact Ep|]. split; [reflexivity|].
  intros Hm Heq.
  exact (conv2d_teq _ _ _ _ _ _ _ Heq (aux_forward_eval _ _ _ _ _ _ Hm Ec)
           (aux_forward_eval _ _ _ _ _ _ Hm Ep)).
Qed.

Lemma cbr_const_value a b x c k y k' :
  conv_bn_relu (cbr_const a b) x c k = Some (y, k') ->
  forall i1 i2 i3 i4, get y [i1; i2; i3; i4] = 1.
Proof.
  intros H. unfold conv_bn_relu in H. inv_m H. clean_m.
  intros i1 i2 i3 i4. unfold batch_norm in E0.
  destruct (shape a0) as [|n [|ch [|h [|w [|]]]]]; try discriminate.
  destruct (_ && _)%bool; [|discriminate]. injection E0 as <- <-.
  cbn [relu get cbr_bn cbr_const bn_const bn_weight bn_bias zeros filled].
  rewrite Rmult_0_r, Rplus_0_l. apply Rmax_right. lra.
Qed.

(** C5, as stated, fails in train mode: [head1] yields refined channel and
    position features that are equal (all 1), but the two calls of
    [aux_head_cam] use two different dropout draws, the first keeping every
    channel and the second dropping every channel, so the two auxiliary logits
    differ. *)
Lemma aux_logits_shared_head_counterexample :
  exists cf pf k1 logit cl pl k',
    dahead_branches head1 [feat1] ctx_train1 0%nat = Some ((cf, pf), k1) /\
    dahead_forward head1 [feat1] ctx_train1 0%nat = Some ([logit; cl; pl], k') /\
    teq cf pf /\ get cl [0; 0; 0; 0]%nat <> get pl [0; 0; 0; 0]%nat.
Proof.
  destruct (dahead_branches head1 [feat1] ctx_train1 0%nat) as [[[cf pf] k1]|] eqn:Eb;
    [|exfalso; revert Eb; apply some_not_none; vm_compute; reflexivity].
  destruct (dahead_forward head1 [feat1] ctx_train1 0%nat) as [[out k']|] eqn:Ef;
    [|exfalso; revert Ef; apply some_not_none; vm_compute; reflexivity].
  assert (Hs : option_map (fun r => (shape (fst (fst r)), shape (snd (fst r)), snd r))
                 (dahead_branches head1 [feat1] ctx_train1 0%nat) =
               Some ([1; 8; 2; 2]%nat, [1; 8; 2; 2]%nat, 0%nat)) by (vm_compute; reflexivity).
  rewrite Eb in Hs. simpl in Hs. injection Hs as Hcf Hpf ->.
  pose proof Eb as Eb2.
  apply dahead_branches_inv in Eb2 as (feats & a & a' & b & b' & ka & kb & kc & _ & _ & _ & E3 & _ & _ & E6).
  pose proof (cbr_const_value _ _ _ _ _ _ _ E3) as Vcf.
  pose proof (cbr_const_value _ _ _ _ _ _ _ E6) as Vpf.
  apply dahead_forward_inv in Ef as (cf' & pf' & k1 & fsum & cl & pl & logit & k2 & k3 & Eb' & _ & Ec & Ep & _ & ->).
  rewrite Eb in Eb'. injection Eb' as <- <- <-.
  exists cf, pf, 0%nat, logit, cl, pl, k'. split; [reflexivity|]. split; [reflexivity|].
  split.
  - split; [congruence|]. intros idx Hidx. rewrite Hcf in Hidx.
    apply valid4 in Hidx as (i1 & i2 & i3 & i4 & -> & _).
    rewrite Vcf, Vpf. reflexivity.
  - unfold aux_forward, mbind, dropout2d, lift in Ec. rewrite Hcf in Ec. simpl in Ec.
    injection Ec as <- <-.
    unfold aux_forward, mbind, dropout2d, lift in Ep. rewrite Hpf in Ep. simpl in Ep.
    injection Ep as <- <-.
    simpl. unfold padded. simpl. rewrite !Vcf. lra.
Qed.

Lemma aux_logits_shared_head_witness :
  exists out k', dahead_forward head1 [feat1] ctx_eval 0%nat = Some (out, k') /\
    exists cf pf k1 k2 k3 logit cl pl,
      dahead_branches head1 [feat1] ctx_eval 0%nat = Some ((cf, pf), k1) /\
      aux_forward (aux_head_cam head1) cf ctx_eval k1 = Some (cl, k2) /\
      aux_forward (aux_head_cam head1) pf ctx_eval k2 = Some (pl, k3) /\
      out = [logit; cl; pl] /\
      (ctx_mode ctx_eval = Eval -> teq cf pf -> teq cl pl).
Proof.
  destruct (dahead_forward head1 [feat1] ctx_eval 0%nat) as [[out k']|] eqn:Ef;
    [|exfalso; revert Ef; apply some_not_none; vm_compute; reflexivity].
  exists out, k'. split; [reflexivity|].
  exact (aux_logits_shared_head head1 [feat1] ctx_eval 0%nat out k' Ef).
Defined.

Lemma dahead_uses_last_only_witness :
  dahead_forward head1 [feat0; feat1] ctx_train1 0%nat = dahead_forward head1 [feat1] ctx_train1 0%nat.
Proof.
  apply (dahead_uses_last_only head1 [feat0; feat1] [feat1] feat1);
    [discriminate | discriminate | reflexivity].
Defined.

Lemma pretrained_missing_fails_witness :
  exists e,
    fst (danet_new fs_empty loader_id 1 backbone1 (Some "/nonexistent/path.pdparams"%string)
           (Some [0; 1]%Z) draw0) = Err e /\
    (forall q, ~ In (LoadPretrained q)
       (snd (danet_new fs_empty loader_id 1 backbone1 (Some "/nonexistent/path.pdparams"%string)
               (Some [0; 1]%Z) draw0))) /\
    (forall m, danet_build 1 backbone1 (Some [0; 1]%Z) draw0 = Ok m ->
       e = PretrainedNotFound "/nonexistent/path.pdparams"%string).
Proof.
  apply (pretrained_missing_fails fs_empty loader_id 1 backbone1 "/nonexistent/path.pdparams"%string
           (Some [0; 1]%Z) draw0).
  reflexivity.
Defined.

Lemma danet_forward_resized_logits_witness :
  exists outs k',
    danet_forward danet1 img1 ctx_train1 0%nat = Some (outs, k') /\
    exists fs k1 idxs sel logit cam_logit pam_logit o1 o2 o3,
      backbone_forward (backbone danet1) img1 ctx_train1 0%nat = Some (fs, k1) /\
      backbone_indices danet1 = Some idxs /\
      map_option (py_index fs) idxs = Some sel /\
      dahead_forward (head danet1) sel ctx_train1 k1 = Some ([logit; cam_logit; pam_logit], k') /\
      outs = [o1; o2; o3] /\
      resize_bilinear logit [8; 8]%nat = Some o1 /\
      resize_bilinear cam_logit [8; 8]%nat = Some o2 /\
      resize_bilinear pam_logit [8; 8]%nat = Some o3 /\
      shape o1 = [1; 1; 8; 8]%nat /\ shape o2 = [1; 1; 8; 8]%nat /\ shape o3 = [1; 1; 8; 8]%nat.
Proof.
  destruct (danet_forward danet1 img1 ctx_train1 0%nat) as [[outs k']|] eqn:Ef;
    [|exfalso; revert Ef; apply some_not_none; vm_compute; reflexivity].
  exists outs, k'. split; [reflexivity|].
  apply (danet_forward_resized_logits danet1 img1 ctx_train1 0%nat outs k' 1 8 8 1);
    [reflexivity | vm_compute; reflexivity | | exact Ef].
  intros fs k1 H. vm_compute in H. injection H as <- _.
  intros f [<-|[<-|[]]]; reflexivity.
Defined.

(** ** Further properties of the modelled code *)

Lemma flat_lt s idx : valid s idx = true -> (flat s idx < numel s)%nat.
Proof.
  revert idx. induction s as [|d s IH]; intros [|i idx] H; simpl in *; try discriminate.
  - lia.
  - apply andb_prop in H as [Hi H]. apply Nat.ltb_lt in Hi. specialize (IH idx H).
    unfold numel in *. simpl. nia.
Qed.

Lemma unflat_flat s idx : valid s idx = true -> unflat s (flat s idx) = idx.
Proof.
  revert idx. induction s as [|d s IH]; intros [|i idx] H; simpl in *; try discriminate.
  - reflexivity.
  - apply andb_prop in H as [Hi H]. pose proof (flat_lt s idx H) as Hl.
    rewrite Nat.div_add_l by lia. rewrite Nat.div_small by exact Hl.
    rewrite Nat.add_0_r. f_equal.
    rewrite Nat.add_comm, Nat.Div0.mod_add, Nat.mod_small by exact Hl. apply IH, H.
Qed.

Lemma flat_merge n c h w b i p q :
  flat [n; c; (h * w)%nat] [b; i; (p * w + q)%nat] = flat [n; c; h; w] [b; i; p; q].
Proof. unfold flat, numel. simpl. ring. Qed.

Lemma valid4_intro n c h w b i p q :
  (b < n)%nat -> (i < c)%nat -> (p < h)%nat -> (q < w)%nat -> valid [n; c; h; w] [b; i; p; q] = true.
Proof.
  intros. simpl. rewrite !(proj2 (Nat.ltb_lt _ _)) by assumption. reflexivity.
Qed.

Lemma valid3_intro n c m b i l :
  (b < n)%nat -> (i < c)%nat -> (l < m)%nat -> valid [n; c; m] [b; i; l] = true.
Proof.
  intros. simpl. rewrite !(proj2 (Nat.ltb_lt _ _)) by assumption. reflexivity.
Qed.

Lemma sumR_add a b f : sumR (a + b) f = sumR a f + sumR b (fun j => f (a + j)%nat).
Proof.
  induction b as [|b IH]; simpl.
  - rewrite Nat.add_0_r. ring.
  - rewrite Nat.add_succ_r. simpl. rewrite IH. ring.
Qed.

Lemma sumR_prod h w f :
  sumR (h * w) f = sumR h (fun p => sumR w (fun q => f (p * w + q)%nat)).
Proof.
  induction h as [|h IH]; simpl; [reflexivity|].
  rewrite Nat.add_comm, sumR_add, IH. reflexivity.
Qed.

Lemma sumR_scale n k f : sumR n (fun j => k * f j) = k * sumR n f.
Proof. induction n as [|n IH]; simpl; [ring|]. rewrite IH. ring. Qed.

Lemma sumR_swap n m f :
  sumR n (fun i => sumR m (fun j => f i j)) = sumR m (fun j => sumR n (fun i => f i j)).
Proof.
  induction n as [|n IH]; simpl.
  - induction m as [|m IHm]; simpl; [reflexivity|]. rewrite <- IHm. ring.
  - rewrite IH. clear IH. induction m as [|m IHm]; simpl; [ring|]. rewrite <- IHm. ring.
Qed.

Lemma get_reshape t tgt t' idx :
  reshape t tgt = Some t' -> get t' idx = get t (unflat (shape t) (flat (shape t') idx)).
Proof.
  unfold reshape. destruct (reshape_shape (shape t) tgt); simpl; [|discriminate].
  intros H; inversion H; reflexivity.
Qed.

Lemma get_bmm a c t b m k i r q :
  bmm a c = Some t -> shape a = [b; m; k] ->
  get t [i; r; q] = sumR k (fun l => get a [i; r; l] * get c [i; l; q]).
Proof.
  unfold bmm. intros H Ha. rewrite Ha in H.
  destruct (shape c) as [|b' [|k' [|n [|]]]]; try discriminate.
  destruct (_ && _)%bool; [|discriminate]. inversion H. reflexivity.
Qed.

Lemma get_transpose_021 t t' a b c :
  transpose t [0; 2; 1]%nat = Some t' -> get t' [a; b; c] = get t [a; c; b].
Proof.
  unfold transpose. destruct (_ && _)%bool; [|discriminate].
  intros H; inversion H; reflexivity.
Qed.

Lemma bproj_one idx : idx <> [] -> bproj [1%nat] idx = [O].
Proof.
  intros H. unfold bproj. destruct idx as [|i0 idx] using rev_ind; [contradiction|].
  rewrite length_app. simpl length. rewrite Nat.add_sub.
  rewrite skipn_app, skipn_all2 by lia. rewrite Nat.sub_diag. reflexivity.
Qed.

(** [gamma * feat + x] read at a valid index, for a gate of shape [1]. *)
Lemma get_residual gamma feat x out idx :
  shape gamma = [1%nat] -> shape feat = shape x -> shape x <> [] ->
  valid (shape x) idx = true ->
  residual gamma feat x = Some out ->
  get out idx = get gamma [O] * get feat idx + get x idx.
Proof.
  intros Hg Hf Hx Hv. unfold residual, ew_mul, ew_add, elementwise.
  rewrite Hg, Hf, bshape_one by exact Hx. simpl. rewrite bshape_same. simpl.
  intros H; inversion H; subst; clear H. simpl.
  rewrite !(bproj_valid _ _ Hv). rewrite bproj_one; [reflexivity|].
  intros ->. destruct (shape x); [contradiction | discriminate].
Qed.

Lemma reshape_nhm_shape t t' n k h w :
  reshape t [Z.of_nat n; (-1)%Z; Z.of_nat (h * w)] = Some t' ->
  shape t = [n; k; h; w] -> (h * w <> 0)%nat -> shape t' = [n; k; (h * w)%nat].
Proof.
  intros E Ht Hhw. apply reshape_shape_of in E. rewrite Ht in E.
  apply reshape_shape_nhm in E as [Hnz Hs].
  apply Nat.eqb_neq in Hhw. rewrite Hhw in Hnz, Hs. rewrite Hs. f_equal. f_equal.
  unfold numel; simpl. replace (n * (k * (h * (w * 1))))%nat with (k * (n * (h * w)))%nat by ring.
  apply Nat.div_mul, Hnz.
Qed.

Lemma reshape_nhw_shape t t' n k h w :
  reshape t [Z.of_nat n; (-1)%Z; Z.of_nat h; Z.of_nat w] = Some t' ->
  shape t = [n; k; (h * w)%nat] -> h <> O -> shape t' = [n; k; h; w].
Proof.
  intros E Ht Hh. apply reshape_shape_of in E. rewrite Ht in E.
  apply reshape_shape_nhw in E as (_ & Hnz & Hs).
  apply Nat.eqb_neq in Hh. rewrite Hh in Hnz, Hs. rewrite Hs. f_equal. f_equal.
  unfold numel; simpl. replace (n * (k * (h * w * 1)))%nat with (k * (n * h * w))%nat by ring.
  apply Nat.div_mul, Hnz.
Qed.

Lemma reshape_nch_shape t t' n c h w :
  reshape t [Z.of_nat n; Z.of_nat c; Z.of_nat (h * w)] = Some t' ->
  shape t = [n; c; h; w] -> (h * w <> 0)%nat -> shape t' = [n; c; (h * w)%nat].
Proof.
  intros E Ht Hhw. apply reshape_shape_of in E. rewrite Ht in E.
  apply reshape_shape_nch in E. rewrite !nat_ifz_self in E.
  apply Nat.eqb_neq in Hhw. rewrite Hhw in E. exact E.
Qed.

Lemma reshape_nchw_shape t t' n c h w :
  reshape t [Z.of_nat n; Z.of_nat c; Z.of_nat h; Z.of_nat w] = Some t' ->
  shape t = [n; c; (h * w)%nat] -> h <> O -> shape t' = [n; c; h; w].
Proof.
  intros E Ht Hh. apply reshape_shape_of in E. rewrite Ht in E.
  apply reshape_shape_nchw in E as [_ E]. rewrite !nat_ifz_self in E.
  apply Nat.eqb_neq in Hh. rewrite Hh in E. exact E.
Qed.

(** Merging the two spatial axes: entry [p * w + q] of the merged tensor is
    pixel [(p, q)]. *)
Lemma get_reshape_merge t t' tgt n c h w b i p q :
  reshape t tgt = Some t' -> shape t = [n; c; h; w] -> shape t' = [n; c; (h * w)%nat] ->
  (b < n)%nat -> (i < c)%nat -> (p < h)%nat -> (q < w)%nat ->
  get t' [b; i; (p * w + q)%nat] = get t [b; i; p; q].
Proof.
  intros E Ht Ht' Hb Hi Hp Hq. rewrite (get_reshape _ _ _ _ E), Ht, Ht', flat_merge.
  rewrite unflat_flat by (apply valid4_intro; assumption). reflexivity.
Qed.

Lemma get_reshape_split t t' tgt n c h w b i p q :
  reshape t tgt = Some t' -> shape t = [n; c; (h * w)%nat] -> shape t' = [n; c; h; w] ->
  (b < n)%nat -> (i < c)%nat -> (p < h)%nat -> (q < w)%nat ->
  get t' [b; i; p; q] = get t [b; i; (p * w + q)%nat].
Proof.
  intros E Ht Ht' Hb Hi Hp Hq. rewrite (get_reshape _ _ _ _ E), Ht, Ht', <- flat_merge.
  rewrite unflat_flat by (apply valid3_intro; nia). reflexivity.
Qed.

(** The raw channel similarity of CAM is the Gram matrix of the channels. *)
Lemma cam_similarity_get x raw n c h w b i j :
  shape x = [n; c; h; w] -> (h * w <> 0)%nat -> cam_similarity x = Some raw ->
  (b < n)%nat -> (i < c)%nat -> (j < c)%nat ->
  get raw [b; i; j] = sumR h (fun p => sumR w (fun q => get x [b; i; p; q] * get x [b; j; p; q])).
Proof.
  intros Hx Hhw E Hb Hi Hj. unfold cam_similarity in E. rewrite Hx in E.
  destruct (reshape x _) as [qr|] eqn:Eq; simpl in E; [|discriminate].
  destruct (transpose qr _) as [kT|] eqn:Et; simpl in E; [|discriminate].
  pose proof (reshape_nch_shape _ _ _ _ _ _ Eq Hx Hhw) as Hq.
  rewrite (get_bmm _ _ _ _ _ _ _ _ _ E Hq), sumR_prod.
  apply sumR_ext; intros p Hp. apply sumR_ext; intros q Hq'.
  rewrite (get_transpose_021 _ _ _ _ _ Et).
  rewrite !(get_reshape_merge _ _ _ _ _ _ _ _ _ _ _ Eq Hx Hq) by assumption. reflexivity.
Qed.

(** The channel-attended output of CAM: gate times the attention-weighted sum
    of the channels, plus the input. *)
Lemma cam_forward_get p x out att n c h w b i r q :
  shape x = [n; c; h; w] -> (h * w <> 0)%nat -> shape (cam_gamma p) = [1%nat] ->
  cam_forward p x = Some out -> cam_attention x = Some att ->
  (b < n)%nat -> (i < c)%nat -> (r < h)%nat -> (q < w)%nat ->
  get out [b; i; r; q] =
  get (cam_gamma p) [O] * sumR c (fun j => get att [b; i; j] * get x [b; j; r; q])
  + get x [b; i; r; q].
Proof.
  intros Hx Hhw Hg E Ea Hb Hi Hr Hq. unfold cam_forward in E. rewrite Hx, Ea in E. simpl in E.
  destruct (reshape x _) as [v|] eqn:Ev; simpl in E; [|discriminate].
  destruct (bmm att v) as [f0|] eqn:Eb; simpl in E; [|discriminate].
  destruct (reshape f0 _) as [f|] eqn:Ef; simpl in E; [|discriminate].
  pose proof (reshape_nch_shape _ _ _ _ _ _ Ev Hx Hhw) as Hv.
  destruct (cam_attention_shape _ _ Ea) as (n' & c' & h' & w' & Hx' & Hatt).
  rewrite Hx in Hx'. injection Hx' as <- <- <- <-.
  destruct (bmm_shape _ _ _ Eb) as (bb & mm & kk & nn & H1 & H2 & H3).
  rewrite Hatt in H1. rewrite Hv in H2. injection H1 as H1a H1b H1c. subst bb mm kk.
  injection H2 as H2a. subst nn.
  assert (Hh : h <> O) by lia.
  pose proof (reshape_nchw_shape _ _ _ _ _ _ Ef H3 Hh) as Hf.
  rewrite (get_residual _ f x out [b; i; r; q] Hg (eq_trans Hf (eq_sym Hx))
             ltac:(rewrite Hx; discriminate) ltac:(rewrite Hx; apply valid4_intro; assumption) E).
  rewrite (get_reshape_split _ _ _ _ _ _ _ _ _ _ _ Ef H3 Hf) by assumption.
  rewrite (get_bmm _ _ _ _ _ _ _ _ _ Eb Hatt). f_equal. f_equal.
  apply sumR_ext; intros j Hj.
  rewrite (get_reshape_merge _ _ _ _ _ _ _ _ _ _ _ Ev Hx Hv) by assumption. reflexivity.
Qed.

Lemma conv1x1_shape wt bias x y n c h w m :
  conv2d wt bias 0 x = Some y -> shape x = [n; c; h; w] -> shape wt = [m; c; 1%nat; 1%nat] ->
  shape y = [n; m; h; w].
Proof.
  intros E Hx Hw.
  destruct (conv2d_shape _ _ _ _ _ E) as (n' & ci & h' & w' & co & kh & kw & Hx' & Hw' & Hkh & Hkw & Hy).
  rewrite Hx in Hx'. injection Hx' as <- <- <- <-. rewrite Hw in Hw'. injection Hw' as <- <- <-.
  rewrite Hy. f_equal. f_equal. f_equal; [lia | f_equal; lia].
Qed.

(** The spatial attention of PAM: the softmax, over all positions, of the dot
    product of the query at one position with the key at another. *)
Lemma pam_attention_get pm x att qf kf n c h w m b p q p' q' :
  shape x = [n; c; h; w] -> (h * w <> 0)%nat ->
  shape (query_w pm) = [m; c; 1%nat; 1%nat] -> shape (key_w pm) = [m; c; 1%nat; 1%nat] ->
  conv2d (query_w pm) (query_b pm) 0 x = Some qf -> conv2d (key_w pm) (key_b pm) 0 x = Some kf ->
  pam_attention pm x = Some att ->
  (b < n)%nat -> (p < h)%nat -> (q < w)%nat -> (p' < h)%nat -> (q' < w)%nat ->
  get att [b; (p * w + q)%nat; (p' * w + q')%nat] =
  exp (sumR m (fun k => get qf [b; k; p; q] * get kf [b; k; p'; q'])) /
  sumR h (fun p2 => sumR w (fun q2 =>
    exp (sumR m (fun k => get qf [b; k; p; q] * get kf [b; k; p2; q2])))).
Proof.
  intros Hx Hhw Hwq Hwk Eqf Ekf E Hb Hp Hq Hp' Hq'.
  unfold pam_attention in E. rewrite Hx, Eqf, Ekf in E. simpl in E.
  destruct (reshape qf _) as [q2|] eqn:Eq2; simpl in E; [|discriminate].
  destruct (transpose q2 _) as [qT|] eqn:EqT; simpl in E; [|discriminate].
  destruct (reshape kf _) as [k2|] eqn:Ek2; simpl in E; [|discriminate].
  destruct (bmm qT k2) as [sim|] eqn:Eb; simpl in E; [|discriminate].
  pose proof (conv1x1_shape _ _ _ _ _ _ _ _ _ Eqf Hx Hwq) as Hqf.
  pose proof (conv1x1_shape _ _ _ _ _ _ _ _ _ Ekf Hx Hwk) as Hkf.
  pose proof (reshape_nhm_shape _ _ _ _ _ _ Eq2 Hqf Hhw) as Hq2.
  pose proof (reshape_nhm_shape _ _ _ _ _ _ Ek2 Hkf Hhw) as Hk2.
  destruct (transpose_021 _ _ EqT) as (a1 & a2 & a3 & Ha & HqT).
  rewrite Hq2 in Ha. injection Ha as Ha1 Ha2 Ha3. subst a1 a2 a3.
  destruct (bmm_shape _ _ _ Eb) as (bb & mm & kk & nn & H1 & H2 & H3).
  rewrite HqT in H1. rewrite Hk2 in H2. injection H1 as H1a H1b H1c. subst bb mm kk.
  injection H2 as H2a. subst nn.
  assert (Hsim : forall r l, get sim [b; r; l] = sumR m (fun k => get q2 [b; k; r] * get k2 [b; k; l])).
  { intros r l. rewrite (get_bmm _ _ _ _ _ _ _ _ _ Eb HqT). apply sumR_ext; intros k _.
    rewrite (get_transpose_021 _ _ _ _ _ EqT). reflexivity. }
  assert (Hpix : forall r1 s1 r2 s2, (r1 < h)%nat -> (s1 < w)%nat -> (r2 < h)%nat -> (s2 < w)%nat ->
            get sim [b; (r1 * w + s1)%nat; (r2 * w + s2)%nat] =
            sumR m (fun k => get qf [b; k; r1; s1] * get kf [b; k; r2; s2])).
  { intros r1 s1 r2 s2 ? ? ? ?. rewrite Hsim. apply sumR_ext; intros k Hk.
    rewrite (get_reshape_merge _ _ _ _ _ _ _ _ _ _ _ Eq2 Hqf Hq2),
            (get_reshape_merge _ _ _ _ _ _ _ _ _ _ _ Ek2 Hkf Hk2) by assumption. reflexivity. }
  rewrite (get_softmax _ _ _ E), H3. simpl last_dim. cbn [set_last removelast app].
  rewrite Hpix by assumption. f_equal.
  change (last_dim [n; (h * w)%nat; (h * w)%nat]) with (h * w)%nat. rewrite sumR_prod. apply sumR_ext; intros p2 Hp2. apply sumR_ext; intros q2' Hq2'.
  rewrite Hpix by assumption. reflexivity.
Qed.

(** The position-attended output of PAM: gate times the attention-weighted sum
    of the value features over all positions, plus the input. *)
Lemma pam_forward_get pm x out att v n c h w b o p q :
  shape x = [n; c; h; w] -> (h * w <> 0)%nat ->
  shape (value_w pm) = [c; c; 1%nat; 1%nat] -> shape (pam_gamma pm) = [1%nat] ->
  pam_forward pm x = Some out -> pam_attention pm x = Some att ->
  conv2d (value_w pm) (value_b pm) 0 x = Some v ->
  (b < n)%nat -> (o < c)%nat -> (p < h)%nat -> (q < w)%nat ->
  get out [b; o; p; q] =
  get (pam_gamma pm) [O] *
    sumR h (fun p2 => sumR w (fun q2 =>
      get v [b; o; p2; q2] * get att [b; (p * w + q)%nat; (p2 * w + q2)%nat]))
  + get x [b; o; p; q].
Proof.
  intros Hx Hhw Hwv Hg E Ea Ev Hb Ho Hp Hq.
  unfold pam_forward in E. rewrite Hx, Ea, Ev in E. simpl in E.
  destruct (reshape v _) as [v2|] eqn:Ev2; simpl in E; [|discriminate].
  destruct (transpose att _) as [attT|] eqn:Et; simpl in E; [|discriminate].
  destruct (bmm v2 attT) as [f0|] eqn:Eb; simpl in E; [|discriminate].
  destruct (reshape f0 _) as [f|] eqn:Ef; simpl in E; [|discriminate].
  pose proof (conv1x1_shape _ _ _ _ _ _ _ _ _ Ev Hx Hwv) as Hv.
  pose proof (reshape_nhm_shape _ _ _ _ _ _ Ev2 Hv Hhw) as Hv2.
  destruct (pam_attention_shape _ _ _ Ea) as (n' & c' & h' & w' & mq & L & Hx' & Hatt & _ & HL).
  rewrite Hx in Hx'. injection Hx' as <- <- <- <-. destruct (HL Hhw) as [-> ->].
  destruct (transpose_021 _ _ Et) as (a1 & a2 & a3 & Ha & HaT).
  rewrite Hatt in Ha. injection Ha as Ha1 Ha2 Ha3. subst a1 a2 a3.
  destruct (bmm_shape _ _ _ Eb) as (bb & mm & kk & nn & H1 & H2 & H3).
  rewrite Hv2 in H1. rewrite HaT in H2. injection H1 as H1a H1b H1c. subst bb mm kk.
  injection H2 as H2a. subst nn.
  assert (Hh : h <> O) by lia.
  pose proof (reshape_nhw_shape _ _ _ _ _ _ Ef H3 Hh) as Hf.
  rewrite (get_residual _ f x out [b; o; p; q] Hg (eq_trans Hf (eq_sym Hx))
             ltac:(rewrite Hx; discriminate) ltac:(rewrite Hx; apply valid4_intro; assumption) E).
  rewrite (get_reshape_split _ _ _ _ _ _ _ _ _ _ _ Ef H3 Hf) by assumption.
  rewrite (get_bmm _ _ _ _ _ _ _ _ _ Eb Hv2), sumR_prod. f_equal. f_equal.
  apply sumR_ext; intros p2 Hp2. apply sumR_ext; intros q2 Hq2.
  rewrite (get_transpose_021 _ _ _ _ _ Et).
  rewrite (get_reshape_merge _ _ _ _ _ _ _ _ _ _ _ Ev2 Hv Hv2) by assumption. reflexivity.
Qed.


(** The CAM attention read through its definition: the softmax of (row
    maximum - entry) over the raw similarity. *)
Lemma cam_attention_stab x raw att n c h w b i j :
  shape x = [n; c; h; w] -> cam_similarity x = Some raw -> cam_attention x = Some att ->
  (b < n)%nat -> (i < c)%nat -> (j < c)%nat ->
  get att [b; i; j] =
  exp (maxR (c - 1) (fun k => get raw [b; i; k]) - get raw [b; i; j]) /
  sumR c (fun k => exp (maxR (c - 1) (fun k' => get raw [b; i; k']) - get raw [b; i; k])).
Proof.
  intros Hx Hraw Hatt Hb Hi Hj.
  destruct (cam_similarity_shape _ _ Hraw) as (n' & c' & h' & w' & Hx' & HrS).
  rewrite Hx in Hx'. injection Hx' as <- <- <- <-.
  unfold cam_attention in Hatt. rewrite Hraw in Hatt. simpl in Hatt.
  destruct (max_last_keepdim raw) as [mx|] eqn:Em; simpl in Hatt; [|discriminate].
  destruct (expand_as mx raw) as [mx2|] eqn:Ee; simpl in Hatt; [|discriminate].
  destruct (ew_sub mx2 raw) as [d|] eqn:Ed; simpl in Hatt; [|discriminate].
  pose proof (max_last_shape _ _ Em) as [HmS _]. rewrite HrS in HmS. simpl in HmS.
  pose proof (expand_as_shape _ _ _ Ee) as HeS. rewrite HrS in HeS.
  pose proof (elementwise_shape _ _ _ _ Ed) as HdS.
  rewrite HeS, HrS, bshape_same in HdS. injection HdS as HdS.
  assert (Hd : forall j, (j < c)%nat ->
            get d [b; i; j] = maxR (c - 1) (fun k => get raw [b; i; k]) - get raw [b; i; j]).
  { intros j' Hj'. rewrite (get_elementwise _ _ _ _ _ Ed), HeS, HrS.
    rewrite bproj_valid by (apply valid3_intro; assumption).
    rewrite (get_expand_as _ _ _ _ Ee), HmS, bproj_row_keep by assumption.
    rewrite (get_max_last _ _ _ Em), HrS. reflexivity. }
  rewrite (get_softmax _ _ _ Hatt), <- HdS. simpl last_dim.
  rewrite Hd by exact Hj. f_equal. apply sumR_ext. intros k Hk.
  change (set_last [b; i; j] k) with [b; i; k]. rewrite Hd by exact Hk. reflexivity.
Qed.

(** Every row of the CAM attention is a probability distribution. *)
Lemma cam_attention_row_stochastic x att n c h w b i :
  shape x = [n; c; h; w] -> cam_attention x = Some att -> (b < n)%nat -> (i < c)%nat ->
  (forall j, (j < c)%nat -> 0 <= get att [b; i; j]) /\ sumR c (fun j => get att [b; i; j]) = 1.
Proof.
  intros Hx Hatt Hb Hi.
  destruct (cam_attention_shape _ _ Hatt) as (n' & c' & h' & w' & Hx' & HaS).
  rewrite Hx in Hx'. injection Hx' as <- <- <- <-.
  unfold cam_attention in Hatt.
  destruct (cam_similarity x) as [raw|]; simpl in Hatt; [|discriminate].
  destruct (max_last_keepdim raw) as [mx|]; simpl in Hatt; [|discriminate].
  destruct (expand_as mx raw) as [mx2|]; simpl in Hatt; [|discriminate].
  destruct (ew_sub mx2 raw) as [d|]; simpl in Hatt; [|discriminate].
  pose proof (softmax_shape _ _ Hatt) as Hs. rewrite HaS in Hs.
  apply (softmax_row _ _ n c c b i Hatt (eq_sym Hs)). lia.
Qed.

(** Subtracting the row maximum changes nothing: the CAM attention is the
    plain softmax of the negated raw similarity. *)
Lemma cam_attention_softmax_neg x raw att n c h w b i j :
  shape x = [n; c; h; w] -> cam_similarity x = Some raw -> cam_attention x = Some att ->
  (b < n)%nat -> (i < c)%nat -> (j < c)%nat ->
  get att [b; i; j] = exp (- get raw [b; i; j]) / sumR c (fun k => exp (- get raw [b; i; k])).
Proof.
  intros Hx Hraw Hatt Hb Hi Hj.
  rewrite (cam_attention_stab _ _ _ _ _ _ _ _ _ _ Hx Hraw Hatt Hb Hi Hj).
  set (mx := maxR (c - 1) (fun k => get raw [b; i; k])).
  unfold Rminus. rewrite exp_plus.
  rewrite (sumR_ext _ _ (fun k => exp mx * exp (- get raw [b; i; k]))) by (intros; apply exp_plus).
  rewrite sumR_scale. field. split.
  - apply Rgt_not_eq, sumR_pos; [lia | intros; apply exp_pos].
  - apply Rgt_not_eq, exp_pos.
Qed.


Lemma dropout2d_draws p x c k y k' :
  dropout2d p x c k = Some (y, k') ->
  k' = match ctx_mode c with Train => S k | Eval => k end.
Proof.
  unfold dropout2d. destruct (shape x) as [|n [|ch [|h [|w [|]]]]]; try discriminate.
  destruct (ctx_mode c); intros H; injection H as _ <-; reflexivity.
Qed.

Lemma aux_forward_draws a x c k y k' :
  aux_forward a x c k = Some (y, k') ->
  k' = match ctx_mode c with Train => S k | Eval => k end.
Proof.
  unfold aux_forward. intros H. inv_m H. clean_m. exact (dropout2d_draws _ _ _ _ _ _ E).
Qed.

(** A forward pass of DAHead makes exactly three dropout draws in train mode
    (one per applied head) and none in eval mode. *)
Lemma dahead_forward_draws p l c k out k' :
  dahead_forward p l c k = Some (out, k') ->
  k' = match ctx_mode c with Train => (k + 3)%nat | Eval => k end.
Proof.
  intros H.
  destruct (dahead_forward_inv _ _ _ _ _ _ H) as (cf & pf & k1 & fs & cl & pl & lg & k2 & k3 & Eb & _ & E1 & E2 & E3 & _).
  destruct (dahead_branches_inv _ _ _ _ _ _ _ Eb) as (feats & a & a' & b & b' & ka & kb & kc & _ & C1 & _ & C2 & C3 & _ & C4).
  apply conv_bn_relu_shape in C1 as [-> _]. apply conv_bn_relu_shape in C2 as [-> _].
  apply conv_bn_relu_shape in C3 as [-> _]. apply conv_bn_relu_shape in C4 as [-> _].
  apply aux_forward_draws in E1, E2, E3. subst.
  destruct (ctx_mode c); lia.
Qed.

Lemma dahead_branches_eval p l m1 m2 k :
  dahead_branches p l (mk_ctx Eval m1) k = dahead_branches p l (mk_ctx Eval m2) k.
Proof.
  unfold dahead_branches, conv_bn_relu, batch_norm, mbind, lift, mret.
  cbv beta iota zeta delta [ctx_mode]. reflexivity.
Qed.

(** In eval mode the forward pass of DAHead does not read the dropout masks. *)
Lemma dahead_eval_mask_free p l m1 m2 k :
  dahead_forward p l (mk_ctx Eval m1) k = dahead_forward p l (mk_ctx Eval m2) k.
Proof.
  unfold dahead_forward.
  change (mbind ?m ?f ?c k) with (match m c k with Some (a, k') => f a c k' | None => None end).
  rewrite (dahead_branches_eval p l m1 m2 k).
  destruct (dahead_branches p l (mk_ctx Eval m2) k) as [[[cf pf] k1]|]; [|reflexivity].
  unfold aux_forward, dropout2d, mbind, lift, mret.
  cbv beta iota zeta delta [ctx_mode]. reflexivity.
Qed.

(** [feat_list[-1]] on an empty list: the forward pass of DAHead fails. *)
Lemma dahead_forward_empty p c k : dahead_forward p [] c k = None.
Proof. reflexivity. Qed.

Lemma map_option_app {A B} (f : A -> option B) l1 l2 :
  map_option f (l1 ++ l2) = (r1 <- map_option f l1 ;; r2 <- map_option f l2 ;; Some (r1 ++ r2)).
Proof.
  induction l1 as [|a l1 IH]; simpl.
  - destruct (map_option f l2); reflexivity.
  - destruct (f a); simpl; [|reflexivity]. rewrite IH.
    destruct (map_option f l1); simpl; [|reflexivity].
    destruct (map_option f l2); reflexivity.
Qed.

Lemma map_option_all_some {A B} (f : A -> option B) l :
  (forall a, In a l -> f a <> None) -> exists r, map_option f l = Some r.
Proof.
  induction l as [|a l IH]; intros H; simpl; [eauto|].
  destruct (f a) as [b|] eqn:Ef; [|exfalso; apply (H a); [left; reflexivity | exact Ef]].
  destruct IH as [r ->]; [intros a' Ha'; apply H; right; exact Ha'|]. simpl. eauto.
Qed.

Lemma map_option_none {A B} (f : A -> option B) l a :
  In a l -> f a = None -> map_option f l = None.
Proof.
  induction l as [|a' l IH]; intros Ha Hf; [destruct Ha|]. simpl.
  destruct Ha as [<-|Ha]; [rewrite Hf; reflexivity|].
  destruct (f a'); simpl; [|reflexivity]. rewrite IH by assumption. reflexivity.
Qed.

Lemma dahead_forward_last p l1 l2 c k :
  py_index l1 (-1) = py_index l2 (-1) -> dahead_forward p l1 c k = dahead_forward p l2 c k.
Proof.
  intros H. unfold dahead_forward, dahead_branches, mbind, lift. rewrite H. reflexivity.
Qed.

(** [DANet.forward] only uses the last of its [backbone_indices]: when every
    other index is in range for the backbone's output, the result is the one
    of the model that selects the last index alone. *)
Lemma danet_forward_last_index bb idxs j hd x c k :
  (forall feats k1, backbone_forward bb x c k = Some (feats, k1) ->
     forall i, In i idxs -> py_index feats i <> None) ->
  danet_forward (mk_DANet bb (Some (idxs ++ [j])) hd) x c k =
  danet_forward (mk_DANet bb (Some [j]) hd) x c k.
Proof.
  intros H. unfold danet_forward. cbn [backbone backbone_indices head].
  change (mbind ?m ?f c k) with (match m c k with Some (a, k') => f a c k' | None => None end).
  destruct (backbone_forward bb x c k) as [[feats k1]|] eqn:Eb; [|reflexivity].
  unfold mbind, lift.
  destruct (map_option_all_some (py_index feats) idxs (H feats k1 eq_refl)) as [r Hr].
  rewrite map_option_app, Hr. simpl.
  destruct (py_index feats j) as [y|]; simpl; [|reflexivity].
  rewrite (dahead_forward_last hd (r ++ [y]) [y]); [reflexivity|].
  rewrite (py_index_last _ y) by (destruct r; discriminate).
  rewrite (py_index_last [y] y) by discriminate. rewrite last_last. reflexivity.
Qed.


(** An empty [backbone_indices], or one index out of range for
    [feat_channels], makes construction fail with an IndexError before the
    filesystem is consulted. *)
Lemma danet_new_index_error fs loader num_classes bb pretrained idxs draw :
  idxs = [] \/ (exists i, In i idxs /\ py_index (feat_channels bb) i = None) ->
  danet_new fs loader num_classes bb pretrained (Some idxs) draw = (Err IndexError, []).
Proof.
  intros [-> | (i & Hi & Hn)]; [reflexivity|].
  unfold danet_new, danet_build. rewrite (map_option_none _ _ _ Hi Hn). reflexivity.
Qed.

Lemma dahead_new_last num_classes l1 l2 draw :
  py_index l1 (-1) = py_index l2 (-1) ->
  dahead_new num_classes l1 draw = dahead_new num_classes l2 draw.
Proof. intros H. unfold dahead_new. rewrite H. reflexivity. Qed.

(** The head built by [DANet.__init__] depends only on the last of the
    [backbone_indices]: a model that constructs with [idxs ++ [j]] has the head
    of the model built with [[j]] alone. *)
Lemma danet_build_last_index num_classes bb idxs j draw m :
  danet_build num_classes bb (Some (idxs ++ [j])) draw = Ok m ->
  exists m', danet_build num_classes bb (Some [j]) draw = Ok m' /\
    head m' = head m /\ backbone m' = backbone m.
Proof.
  unfold danet_build. rewrite map_option_app.
  destruct (map_option (py_index (feat_channels bb)) idxs) as [r|]; cbn [option_bind]; [|discriminate].
  cbn [map_option]. destruct (py_index (feat_channels bb) j) as [y|]; cbn [option_bind]; [|discriminate].
  rewrite (dahead_new_last num_classes (r ++ [y]) [y]).
  - destruct (dahead_new num_classes [y] draw) as [h|e]; [|discriminate].
    intros H; injection H as <-. eexists; split; [reflexivity|]. split; reflexivity.
  - rewrite (py_index_last _ y) by (destruct r; discriminate).
    rewrite (py_index_last [y] y) by discriminate. rewrite last_last. reflexivity.
Qed.


Lemma src_coord_same h i : (i < h)%nat -> src_coord h h i = (i, 0).
Proof.
  intros Hi. unfold src_coord. destruct (1 <? h)%nat eqn:E.
  - apply Nat.ltb_lt in E. rewrite Nat.div_mul, Nat.Div0.mod_mul by lia.
    f_equal. simpl. unfold Rdiv. ring.
  - apply Nat.ltb_ge in E. f_equal. lia.
Qed.

Lemma src_coord_first h o : src_coord h o 0 = (O, 0).
Proof.
  unfold src_coord. destruct (1 <? o)%nat; [|reflexivity].
  simpl. rewrite Nat.Div0.div_0_l, Nat.Div0.mod_0_l. f_equal. simpl. unfold Rdiv. ring.
Qed.

Lemma src_coord_last h o : (1 < o)%nat -> src_coord h o (o - 1) = ((h - 1)%nat, 0).
Proof.
  intros Ho. unfold src_coord. rewrite (proj2 (Nat.ltb_lt _ _) Ho).
  rewrite (Nat.mul_comm (o - 1)), Nat.div_mul, Nat.Div0.mod_mul by lia.
  f_equal. simpl. unfold Rdiv. ring.
Qed.

Lemma src_coord_range h o i :
  (0 < h)%nat -> (i < o)%nat ->
  (fst (src_coord h o i) < h)%nat /\ 0 <= snd (src_coord h o i) <= 1.
Proof.
  intros Hh Hi. unfold src_coord. destruct (1 <? o)%nat eqn:E; simpl; [|split; [lia | lra]].
  apply Nat.ltb_lt in E. split.
  - apply (Nat.le_lt_trans _ ((o - 1) * (h - 1) / (o - 1))).
    + apply Nat.Div0.div_le_mono. apply Nat.mul_le_mono_r. lia.
    + rewrite (Nat.mul_comm (o - 1)), Nat.div_mul by lia. lia.
  - assert (Hm : (i * (h - 1) mod (o - 1) < o - 1)%nat) by (apply Nat.mod_upper_bound; lia).
    apply lt_INR in Hm. assert (Hp : 0 < INR (o - 1)) by (apply lt_0_INR; lia).
    pose proof (pos_INR (i * (h - 1) mod (o - 1))).
    split.
    + unfold Rdiv. apply Rmult_le_pos; [lra | apply Rlt_le, Rinv_0_lt_compat; lra].
    + apply Rlt_le. apply (Rmult_lt_reg_r (INR (o - 1))); [exact Hp|].
      unfold Rdiv. rewrite Rmult_assoc, Rinv_l by lra. lra.
Qed.

Lemma valid4_elim n c h w b i p q :
  valid [n; c; h; w] [b; i; p; q] = true -> (b < n /\ i < c /\ p < h /\ q < w)%nat.
Proof.
  simpl. rewrite !andb_true_iff, !Nat.ltb_lt. tauto.
Qed.

Lemma get_resize t t' n c h w oh ow b ch i j :
  shape t = [n; c; h; w] -> resize_bilinear t [oh; ow] = Some t' ->
  get t' [b; ch; i; j] =
  (1 - snd (src_coord h oh i)) * (1 - snd (src_coord w ow j)) *
     get t [b; ch; fst (src_coord h oh i); fst (src_coord w ow j)]
  + (1 - snd (src_coord h oh i)) * snd (src_coord w ow j) *
     get t [b; ch; fst (src_coord h oh i); Nat.min (fst (src_coord w ow j) + 1) (w - 1)]
  + snd (src_coord h oh i) * (1 - snd (src_coord w ow j)) *
     get t [b; ch; Nat.min (fst (src_coord h oh i) + 1) (h - 1); fst (src_coord w ow j)]
  + snd (src_coord h oh i) * snd (src_coord w ow j) *
     get t [b; ch; Nat.min (fst (src_coord h oh i) + 1) (h - 1);
               Nat.min (fst (src_coord w ow j) + 1) (w - 1)].
Proof.
  intros Ht E. unfold resize_bilinear in E. rewrite Ht in E. injection E as <-. simpl.
  destruct (src_coord h oh i) as [y0 ly]. destruct (src_coord w ow j) as [x0 lx]. reflexivity.
Qed.

(** Resizing to the input's own spatial size is the identity. *)
Lemma resize_same_size t t' n c h w :
  shape t = [n; c; h; w] -> resize_bilinear t [h; w] = Some t' -> teq t' t.
Proof.
  intros Ht E. split.
  - destruct (resize_shape _ _ _ _ E) as (n' & c' & h' & w' & Ht' & Hs).
    rewrite Ht in Ht'. injection Ht' as <- <- <- <-. rewrite Hs, Ht. reflexivity.
  - intros idx Hv.
    destruct (resize_shape _ _ _ _ E) as (n' & c' & h' & w' & Ht' & Hs).
    rewrite Ht in Ht'. injection Ht' as <- <- <- <-. rewrite Hs in Hv.
    destruct idx as [|b [|ch [|i [|j [|]]]]]; try (simpl in Hv; rewrite ?andb_false_r in Hv; discriminate).
    apply valid4_elim in Hv as (_ & _ & Hi & Hj).
    rewrite (get_resize _ _ _ _ _ _ _ _ _ _ _ _ Ht E), src_coord_same, src_coord_same by assumption.
    simpl. ring.
Qed.

(** [align_corners=True]: the corner pixels of the resized map are the corner
    pixels of the input. *)
Lemma resize_corners t t' n c h w oh ow b ch :
  shape t = [n; c; h; w] -> resize_bilinear t [oh; ow] = Some t' ->
  (1 < oh)%nat -> (1 < ow)%nat ->
  get t' [b; ch; O; O] = get t [b; ch; O; O] /\
  get t' [b; ch; O; (ow - 1)%nat] = get t [b; ch; O; (w - 1)%nat] /\
  get t' [b; ch; (oh - 1)%nat; O] = get t [b; ch; (h - 1)%nat; O] /\
  get t' [b; ch; (oh - 1)%nat; (ow - 1)%nat] = get t [b; ch; (h - 1)%nat; (w - 1)%nat].
Proof.
  intros Ht E Hoh How.
  rewrite !(get_resize _ _ _ _ _ _ _ _ _ _ _ _ Ht E).
  rewrite !src_coord_first, !src_coord_last by assumption. simpl. repeat split; ring.
Qed.

(** Bilinear resizing never leaves the range of the input: when every input
    entry lies in [[lo, hi]], so does every output entry. *)
Lemma resize_bounds t t' n c h w oh ow lo hi :
  shape t = [n; c; h; w] -> (0 < h)%nat -> (0 < w)%nat ->
  (forall idx, valid (shape t) idx = true -> lo <= get t idx <= hi) ->
  resize_bilinear t [oh; ow] = Some t' ->
  forall idx, valid (shape t') idx = true -> lo <= get t' idx <= hi.
Proof.
  intros Ht Hh Hw Hb E idx Hv.
  destruct (resize_shape _ _ _ _ E) as (n' & c' & h' & w' & Ht' & Hs).
  rewrite Ht in Ht'. injection Ht' as <- <- <- <-. rewrite Hs in Hv.
  destruct idx as [|b [|ch [|i [|j [|]]]]]; try (simpl in Hv; rewrite ?andb_false_r in Hv; discriminate).
  apply valid4_elim in Hv as (Hb' & Hc & Hi & Hj).
  rewrite (get_resize _ _ _ _ _ _ _ _ _ _ _ _ Ht E).
  destruct (src_coord_range h oh i Hh Hi) as [Hy [Hly0 Hly1]].
  destruct (src_coord_range w ow j Hw Hj) as [Hx [Hlx0 Hlx1]].
  set (ly := snd (src_coord h oh i)) in *. set (lx := snd (src_coord w ow j)) in *.
  set (y0 := fst (src_coord h oh i)) in *. set (x0 := fst (src_coord w ow j)) in *.
  assert (Hin : forall y x, (y < h)%nat -> (x < w)%nat -> lo <= get t [b; ch; y; x] <= hi).
  { intros y x Hy' Hx'. apply Hb. rewrite Ht. apply valid4_intro; assumption. }
  destruct (Hin y0 x0) as [A1 A2]; try lia.
  destruct (Hin y0 (Nat.min (x0 + 1) (w - 1))) as [B1 B2]; try lia.
  destruct (Hin (Nat.min (y0 + 1) (h - 1)) x0) as [C1 C2]; try lia.
  destruct (Hin (Nat.min (y0 + 1) (h - 1)) (Nat.min (x0 + 1) (w - 1))) as [D1 D2]; try lia.
  set (a := get t [b; ch; y0; x0]) in *.
  set (b' := get t [b; ch; y0; Nat.min (x0 + 1) (w - 1)]) in *.
  set (c'' := get t [b; ch; Nat.min (y0 + 1) (h - 1); x0]) in *.
  set (d := get t [b; ch; Nat.min (y0 + 1) (h - 1); Nat.min (x0 + 1) (w - 1)]) in *.
  assert (W1 : 0 <= (1 - ly) * (1 - lx)) by (apply Rmult_le_pos; lra).
  assert (W2 : 0 <= (1 - ly) * lx) by (apply Rmult_le_pos; lra).
  assert (W3 : 0 <= ly * (1 - lx)) by (apply Rmult_le_pos; lra).
  assert (W4 : 0 <= ly * lx) by (apply Rmult_le_pos; lra).
  assert (Sum : (1 - ly) * (1 - lx) + (1 - ly) * lx + ly * (1 - lx) + ly * lx = 1) by ring.
  split.
  - apply (Rle_trans _ ((1 - ly) * (1 - lx) * lo + (1 - ly) * lx * lo + ly * (1 - lx) * lo + ly * lx * lo)).
    + right. transitivity (1 * lo); [ring|]. rewrite <- Sum at 1. ring.
    + repeat apply Rplus_le_compat; apply Rmult_le_compat_l; assumption.
  - apply (Rle_trans _ ((1 - ly) * (1 - lx) * hi + (1 - ly) * lx * hi + ly * (1 - lx) * hi + ly * lx * hi)).
    + repeat apply Rplus_le_compat; apply Rmult_le_compat_l; assumption.
    + right. transitivity (1 * hi); [|ring]. rewrite <- Sum at 1. ring.
Qed.

(** Witnesses of the further properties *)

Lemma cam_similarity_get_witness :
  exists raw, cam_similarity x0 = Some raw /\
    get raw [O; 1%nat; 2%nat] =
    sumR 3 (fun p => sumR 2 (fun q => get x0 [O; 1%nat; p; q] * get x0 [O; 2%nat; p; q])).
Proof.
  destruct (cam_similarity x0) as [raw|] eqn:E;
    [|exfalso; revert E; apply some_not_none; vm_compute; reflexivity].
  exists raw. split; [reflexivity|].
  apply (cam_similarity_get x0 raw 2 16 3 2); [reflexivity | lia | exact E | lia | lia | lia].
Defined.

Lemma cam_forward_get_witness :
  exists out att, cam_forward (mk_CAM (filled [1%nat] (1 / 2))) x0 = Some out /\
    cam_attention x0 = Some att /\
    get out [1%nat; 3%nat; 2%nat; 1%nat] =
    1 / 2 * sumR 16 (fun j => get att [1%nat; 3%nat; j] * get x0 [1%nat; j; 2%nat; 1%nat])
    + get x0 [1%nat; 3%nat; 2%nat; 1%nat].
Proof.
  destruct (cam_forward (mk_CAM (filled [1%nat] (1 / 2))) x0) as [out|] eqn:E;
    [|exfalso; revert E; apply some_not_none; vm_compute; reflexivity].
  destruct (cam_attention x0) as [att|] eqn:Ea;
    [|exfalso; revert Ea; apply some_not_none; vm_compute; reflexivity].
  exists out, att. split; [reflexivity|]. split; [reflexivity|].
  apply (cam_forward_get (mk_CAM (filled [1%nat] (1 / 2))) x0 out att 2 16 3 2);
    [reflexivity | lia | reflexivity | exact E | exact Ea | lia | lia | lia | lia].
Defined.

Lemma pam_attention_get_witness :
  exists att qf kf, pam_attention P0 x0 = Some att /\
    conv2d (query_w P0) (query_b P0) 0 x0 = Some qf /\
    conv2d (key_w P0) (key_b P0) 0 x0 = Some kf /\
    get att [1%nat; (2 * 2 + 1)%nat; (0 * 2 + 1)%nat] =
    exp (sumR 2 (fun k => get qf [1%nat; k; 2%nat; 1%nat] * get kf [1%nat; k; O; 1%nat])) /
    sumR 3 (fun p2 => sumR 2 (fun q2 =>
      exp (sumR 2 (fun k => get qf [1%nat; k; 2%nat; 1%nat] * get kf [1%nat; k; p2; q2])))).
Proof.
  destruct (pam_attention P0 x0) as [att|] eqn:E;
    [|exfalso; revert E; apply some_not_none; vm_compute; reflexivity].
  destruct (conv2d (query_w P0) (query_b P0) 0 x0) as [qf|] eqn:Eq;
    [|exfalso; revert Eq; apply some_not_none; vm_compute; reflexivity].
  destruct (conv2d (key_w P0) (key_b P0) 0 x0) as [kf|] eqn:Ek;
    [|exfalso; revert Ek; apply some_not_none; vm_compute; reflexivity].
  exists att, qf, kf. split; [reflexivity|]. split; [reflexivity|]. split; [reflexivity|].
  apply (pam_attention_get P0 x0 att qf kf 2 16 3 2 2);
    [reflexivity | lia | reflexivity | reflexivity | exact Eq | exact Ek | exact E | lia | lia | lia | lia | lia].
Defined.

Lemma pam_forward_get_witness :
  exists out att v, pam_forward P0 x0 = Some out /\ pam_attention P0 x0 = Some att /\
    conv2d (value_w P0) (value_b P0) 0 x0 = Some v /\
    get out [O; 5%nat; 1%nat; O] =
    get (pam_gamma P0) [O] *
      sumR 3 (fun p2 => sumR 2 (fun q2 =>
        get v [O; 5%nat; p2; q2] * get att [O; (1 * 2 + 0)%nat; (p2 * 2 + q2)%nat]))
    + get x0 [O; 5%nat; 1%nat; O].
Proof.
  destruct (pam_forward P0 x0) as [out|] eqn:E;
    [|exfalso; revert E; apply some_not_none; vm_compute; reflexivity].
  destruct (pam_attention P0 x0) as [att|] eqn:Ea;
    [|exfalso; revert Ea; apply some_not_none; vm_compute; reflexivity].
  destruct (conv2d (value_w P0) (value_b P0) 0 x0) as [v|] eqn:Ev;
    [|exfalso; revert Ev; apply some_not_none; vm_compute; reflexivity].
  exists out, att, v. split; [reflexivity|]. split; [reflexivity|]. split; [reflexivity|].
  apply (pam_forward_get P0 x0 out att v 2 16 3 2);
    [reflexivity | lia | reflexivity | reflexivity | exact E | exact Ea | exact Ev | lia | lia | lia | lia].
Defined.


Lemma cam_attention_row_stochastic_witness :
  exists att, cam_attention x0 = Some att /\
    (forall j, (j < 16)%nat -> 0 <= get att [1%nat; 7%nat; j]) /\
    sumR 16 (fun j => get att [1%nat; 7%nat; j]) = 1.
Proof.
  destruct (cam_attention x0) as [att|] eqn:E;
    [|exfalso; revert E; apply some_not_none; vm_compute; reflexivity].
  exists att. split; [reflexivity|].
  apply (cam_attention_row_stochastic x0 att 2 16 3 2); [reflexivity | exact E | lia | lia].
Defined.

Lemma cam_attention_softmax_neg_witness :
  exists raw att, cam_similarity x0 = Some raw /\ cam_attention x0 = Some att /\
    get att [O; 2%nat; 9%nat] =
    exp (- get raw [O; 2%nat; 9%nat]) / sumR 16 (fun k => exp (- get raw [O; 2%nat; k])).
Proof.
  destruct (cam_similarity x0) as [raw|] eqn:Er;
    [|exfalso; revert Er; apply some_not_none; vm_compute; reflexivity].
  destruct (cam_attention x0) as [att|] eqn:E;
    [|exfalso; revert E; apply some_not_none; vm_compute; reflexivity].
  exists raw, att. split; [reflexivity|]. split; [reflexivity|].
  apply (cam_attention_softmax_neg x0 raw att 2 16 3 2); [reflexivity | exact Er | exact E | lia | lia | lia].
Defined.

Lemma dahead_forward_draws_witness :
  exists out k', dahead_forward head1 [feat1] ctx_train1 5%nat = Some (out, k') /\ k' = 8%nat.
Proof.
  destruct (dahead_forward head1 [feat1] ctx_train1 5%nat) as [[out k']|] eqn:E;
    [|exfalso; revert E; apply some_not_none; vm_compute; reflexivity].
  exists out, k'. split; [reflexivity|].
  exact (dahead_forward_draws head1 [feat1] ctx_train1 5%nat out k' E).
Defined.

Lemma danet_forward_last_index_witness :
  danet_forward (mk_DANet backbone1 (Some ([0%Z] ++ [1%Z])) head1) img1 ctx_eval O =
  danet_forward (mk_DANet backbone1 (Some [1%Z]) head1) img1 ctx_eval O.
Proof.
  apply danet_forward_last_index.
  intros feats k1 H i Hi. injection H as <- _. destruct Hi as [<-|[]]. discriminate.
Defined.

Lemma danet_new_index_error_witness :
  danet_new fs_empty loader_id 1 backbone1 None (Some [0; 7]%Z) draw0 = (Err IndexError, []).
Proof.
  apply danet_new_index_error. right. exists 7%Z. split; [right; left; reflexivity | reflexivity].
Defined.

Lemma danet_build_last_index_witness :
  exists m, danet_build 1 backbone1 (Some ([0%Z] ++ [1%Z])) draw0 = Ok m /\
    exists m', danet_build 1 backbone1 (Some [1%Z]) draw0 = Ok m' /\
      head m' = head m /\ backbone m' = backbone m.
Proof.
  eexists. split; [reflexivity|]. apply (danet_build_last_index 1 backbone1 [0%Z] 1%Z draw0). reflexivity.
Defined.


Lemma resize_same_size_witness :
  exists t', resize_bilinear img1 [8; 8]%nat = Some t' /\ teq t' img1.
Proof.
  eexists. split; [reflexivity|]. apply (resize_same_size img1 _ 1 3 8 8); reflexivity.
Defined.

Lemma resize_corners_witness :
  exists t', resize_bilinear x0 [5; 7]%nat = Some t' /\
    get t' [1%nat; 4%nat; O; O] = get x0 [1%nat; 4%nat; O; O] /\
    get t' [1%nat; 4%nat; O; (7 - 1)%nat] = get x0 [1%nat; 4%nat; O; (2 - 1)%nat] /\
    get t' [1%nat; 4%nat; (5 - 1)%nat; O] = get x0 [1%nat; 4%nat; (3 - 1)%nat; O] /\
    get t' [1%nat; 4%nat; (5 - 1)%nat; (7 - 1)%nat] = get x0 [1%nat; 4%nat; (3 - 1)%nat; (2 - 1)%nat].
Proof.
  eexists. split; [reflexivity|].
  apply (resize_corners x0 _ 2 16 3 2 5 7 1 4); [reflexivity | reflexivity | lia | lia].
Defined.

Lemma resize_bounds_witness :
  exists t', resize_bilinear img1 [5; 11]%nat = Some t' /\
    forall idx, valid (shape t') idx = true -> 0 <= get t' idx <= 1.
Proof.
  eexists. split; [reflexivity|].
  apply (resize_bounds img1 _ 1 3 8 8 5 11 0 1); [reflexivity | lia | lia | | reflexivity].
  intros idx _. simpl. lra.
Defined.
